(** * errkit: the canonical error container and its decomposition engine

    A shallow embedding of [src/errkit/errors.go] (package [errkit]) and the
    properties of its classification engine: [ErrorX], [append], [Error],
    [Cause], [FromError], [New], [Msgf], [SetKind], [SetAttr] and
    [parseError].

    Go strings are byte strings: they are modelled by [string], whose
    characters are the 256 byte values. *)

From Stdlib Require Import ZArith Lia Ascii DecimalString DecimalZ.
From stdpp Require Import base option list gmap strings.

Local Open Scope Z_scope.

(** ** The functions of Go's [strings] package that the engine calls *)

Module GoStrings.

(** [strings.CutPrefix(s, prefix)]: the rest of [s] after [prefix], when [s]
    starts with it. *)
Fixpoint CutPrefix (s prefix : string) {struct prefix} : option string :=
  match prefix, s with
  | EmptyString, _ => Some s
  | String p prefix', String c s' =>
      if Ascii.eqb p c then CutPrefix s' prefix' else None
  | String _ _, EmptyString => None
  end.

(** [strings.Cut(s, sep)]: the text before and after the first (leftmost)
    occurrence of [sep] in [s]; [None] when [sep] does not occur. *)
Fixpoint Cut (s sep : string) : option (string * string) :=
  match CutPrefix s sep with
  | Some after => Some (EmptyString, after)
  | None =>
      match s with
      | EmptyString => None
      | String c s' =>
          match Cut s' sep with
          | Some (before, after) => Some (String c before, after)
          | None => None
          end
      end
  end.

(** [strings.Contains(s, substr)], which is [Index(s, substr) >= 0]. *)
Definition Contains (s substr : string) : bool :=
  match Cut s substr with Some _ => true | None => false end.

(** [strings.Split(s, sep)] for a non-empty [sep] (the engine only ever
    passes its four constant markers): the pieces between the leftmost,
    non-overlapping occurrences of [sep], found one [Index] at a time as
    [genSplit] does. Every cut removes at least one byte, so [length s]
    rounds are enough. *)
Fixpoint Split_go (fuel : nat) (s sep : string) : list string :=
  match fuel, Cut s sep with
  | S n, Some (before, after) => before :: Split_go n after sep
  | _, _ => [s]
  end.

Definition Split (s sep : string) : list string :=
  Split_go (String.length s) s sep.

(** [strings.Replace(s, old, new, -1)] and [strings.ReplaceAll(s, old, new)]
    for the empty [new], the only one the engine passes: [Replace] returns
    [s] itself when [old == new], which here is the case of an empty [old];
    otherwise the leftmost non-overlapping occurrences of [old] are
    dropped, leaving the pieces between them. *)
Definition ReplaceAllEmpty (s old : string) : string :=
  match old with
  | EmptyString => s
  | _ => String.concat EmptyString (Split s old)
  end.

(** [strings.CutSuffix(s, suffix)]. *)
Fixpoint CutSuffix (s suffix : string) : option string :=
  if String.eqb s suffix then Some EmptyString
  else match s with
       | EmptyString => None
       | String c s' => String c <$> CutSuffix s' suffix
       end.

(** [strings.TrimSuffix(s, suffix)]: one trailing [suffix] is removed. *)
Definition TrimSuffix (s suffix : string) : string :=
  default s (CutSuffix s suffix).

(** White space "as defined by Unicode" ([unicode.IsSpace]), seen through
    its UTF-8 encoding. One-byte runes: tab, line feed, vertical tab, form
    feed, carriage return and space. *)
Definition asciiSpace (c : ascii) : bool :=
  match N_of_ascii c with
  | 9 | 10 | 11 | 12 | 13 | 32 => true
  | _ => false
  end%N.

(** Two-byte runes: U+0085 (C2 85) and U+00A0 (C2 A0). *)
Definition spaceRune2 (c0 c1 : ascii) : bool :=
  match N_of_ascii c0, N_of_ascii c1 with
  | 194, 133 | 194, 160 => true
  | _, _ => false
  end%N.

(** Three-byte runes: U+1680 (E1 9A 80), U+2000 to U+200A (E2 80 80..8A),
    U+2028, U+2029 (E2 80 A8, A9), U+202F (E2 80 AF), U+205F (E2 81 9F)
    and U+3000 (E3 80 80). *)
Definition spaceRune3 (c0 c1 c2 : ascii) : bool :=
  match N_of_ascii c0, N_of_ascii c1 with
  | 225, 154 => N.eqb (N_of_ascii c2) 128
  | 226, 128 =>
      let b := N_of_ascii c2 in
      (N.leb 128 b && N.leb b 138) || N.eqb b 168 || N.eqb b 169
      || N.eqb b 175
  | 226, 129 => N.eqb (N_of_ascii c2) 159
  | 227, 128 => N.eqb (N_of_ascii c2) 128
  | _, _ => false
  end%N.

(** Leading white space: runes are decoded from the front, and a byte
    sequence that is not valid UTF-8 decodes to U+FFFD, which is not a
    space, so trimming stops exactly at the first bytes that are not the
    encoding of a white-space rune. *)
Fixpoint TrimLeftSpace (s : string) : string :=
  match s with
  | String c0 s1 =>
      if asciiSpace c0 then TrimLeftSpace s1
      else match s1 with
           | String c1 s2 =>
               if spaceRune2 c0 c1 then TrimLeftSpace s2
               else match s2 with
                    | String c2 s3 =>
                        if spaceRune3 c0 c1 c2 then TrimLeftSpace s3 else s
                    | EmptyString => s
                    end
           | EmptyString => s
           end
  | EmptyString => s
  end.

(** Trailing white space, on the reversed string [r]: the last rune is a
    space exactly when the string ends with the encoding of one. *)
Fixpoint TrimRightSpace_rev (r : string) : string :=
  match r with
  | String c0 r1 =>
      if asciiSpace c0 then TrimRightSpace_rev r1
      else match r1 with
           | String c1 r2 =>
               if spaceRune2 c1 c0 then TrimRightSpace_rev r2
               else match r2 with
                    | String c2 r3 =>
                        if spaceRune3 c2 c1 c0 then TrimRightSpace_rev r3
                        else r
                    | EmptyString => r
                    end
           | EmptyString => r
           end
  | EmptyString => r
  end.

Definition TrimRightSpace (s : string) : string :=
  String.rev (TrimRightSpace_rev (String.rev s)).

(** [strings.TrimSpace(s)]: leading, then trailing white space removed. *)
Definition TrimSpace (s : string) : string :=
  TrimRightSpace (TrimLeftSpace s).

End GoStrings.

Import GoStrings.

(** ** What the engine takes from outside [errors.go] *)

(** [slog.Attr]: a key and a value of the logging library. *)
Record Attr (V : Type) : Type := mkAttr { Key : string; Value : V }.
Arguments mkAttr {V} Key Value.
Arguments Key {V} _.
Arguments Value {V} _.

(** The declarations [errors.go] uses and does not contain.

    - [ErrKind], its [String] method and [CombineErrKinds] are declared in
      another file of the package; an [ErrKind] is an interface value, so it
      is absent ([None]) when nil, and [CombineErrKinds] is variadic.
    - [slogValue] is [slog.Value], and [GroupValue_String l] is
      [slog.GroupValue(l...).String()]. *)
Class Externals : Type := {
  ErrKind : Type;
  ErrKind_String : ErrKind → string;
  CombineErrKinds : list (option ErrKind) → option ErrKind;
  slogValue : Type;
  GroupValue_String : list (Attr slogValue) → string
}.

(** [maps.Values(m)]: the values of a Go map "in an indeterminate order". The
    order is the runtime's choice; all that is known of what it returns is
    that it lists the values of the map, each entry once. *)
Class MapOrder : Type := {
  maps_Values : ∀ {A : Type}, gmap string A → list A;
  maps_Values_perm :
    ∀ (A : Type) (m : gmap string A), maps_Values m ≡ₚ (map_to_list m).*2
}.

(** The two package variables, read from the environment at start-up. *)
Class Config : Type := {
  MaxErrorDepth : Z;
  ErrorSeperator : string
}.

(** [env.GetEnvOrDefault("MAX_ERROR_DEPTH", 3)] and
    [env.GetEnvOrDefault("ERROR_SEPERATOR", "; ")] in an empty environment. *)
Definition defaultConfig : Config :=
  {| MaxErrorDepth := 3; ErrorSeperator := "; " |}.

Definition DelimArrow : string := "<-".
(** The Go literal is ["<-"]: the escape is the character [<]. *)
Definition DelimArrowSerialized : string := "<-".
Definition DelimSemiColon : string := "; ".
Definition DelimMultiLine : string :=
  String "010" (String " " (String "-" (String " " (String " " EmptyString)))).
Definition MultiLineErrPrefix : string := "the following errors occurred:".

(** ** Running Go code: a call returns or panics *)

Inductive outcome (A : Type) : Type :=
  | Ok (a : A)
  | Panic.
Arguments Ok {A} a.
Arguments Panic {A}.

#[global] Instance outcome_ret : MRet outcome := @Ok.
#[global] Instance outcome_bind : MBind outcome :=
  λ A B f m, match m with Ok a => f a | Panic => Panic end.

(** A method call on an interface value: on nil it is a nil dereference. *)
Definition deref {A : Type} (v : option A) : outcome A :=
  match v with Some a => Ok a | None => Panic end.

Section errkit.
Context {ext : Externals} {order : MapOrder}.

(** ** Error values

    A non-nil value of the interface type [error], by the first case of the
    type switch of [parseError] that it takes; an interface value that may
    be nil is an [option error].

    - [errorString s]: an error with none of the capabilities below, such
      as [errors.New(s)];
    - [joinError s errs]: a [JoinedError], [Unwrap() []error] gives [errs];
    - [wrapError s err]: a [WrappedError], [Unwrap() error] gives [err];
    - [causeError s cause]: a [CauseError], [Cause()] gives [cause];
    - [errorXPtr ..]: a (non-nil) [*ErrorX] with these four fields.

    [s] is what [Error()] returns. Error values are finite trees: a chain
    that unwraps to itself is not a value of this type. *)
#[warnings="-register-all"] Inductive error : Type :=
  | errorString (s : string)
  | joinError (s : string) (errs : list (option error))
  | wrapError (s : string) (err : option error)
  | causeError (s : string) (cause : option error)
  | errorXPtr (kind : option ErrKind)
              (attrs : gmap string (Attr slogValue))
              (errs : list error)
              (uniqErrs : gset string).

(** [type ErrorX struct]: Go maps are [gmap] and, for [map[string]struct{}],
    [gset]; a nil map reads as the empty one. *)
Record ErrorX : Type := mkErrorX {
  kind : option ErrKind;
  attrs : gmap string (Attr slogValue);
  errs : list error;
  uniqErrs : gset string
}.

(** [&ErrorX{}] *)
Definition emptyErrorX : ErrorX :=
  {| kind := None; attrs := ∅; errs := []; uniqErrs := ∅ |}.

(** [e.Build()]: the container as a value of the interface [error]. *)
Definition toError (e : ErrorX) : error :=
  errorXPtr (kind e) (attrs e) (errs e) (uniqErrs e).

Section methods.
Context {cfg : Config}.

(** The body of [ErrorX.Error], given what [Error()] returns on each
    leaf: the [strings.Builder] is the accumulated string [sb]. *)
Definition render (kind : option ErrKind)
    (attrs : gmap string (Attr slogValue)) (leaves : list string)
    : string :=
  let sb := EmptyString in
  let sb :=
    match kind with
    | Some k =>
        if decide (ErrKind_String k ≠ EmptyString)
        then sb +:+ "errKind=" +:+ ErrKind_String k +:+ " "
        else sb
    | None => sb
    end in
  let sb :=
    if decide (0 < Z.of_nat (size attrs))
    then sb +:+ GroupValue_String (maps_Values attrs) +:+ " "
    else sb in
  let sb :=
    foldl (λ sb leaf, sb +:+ leaf +:+ ErrorSeperator) sb leaves in
  TrimSuffix sb ErrorSeperator.

(** [err.Error()] *)
Fixpoint Error (err : error) : string :=
  match err with
  | errorString s => s
  | joinError s _ => s
  | wrapError s _ => s
  | causeError s _ => s
  | errorXPtr kind attrs errs _ => render kind attrs (Error <$> errs)
  end.

(** [func (e *ErrorX) Error() string] *)
Definition ErrorX_Error (e : ErrorX) : string :=
  render (kind e) (attrs e) (Error <$> errs e).

(** The leaves as the strings they render to. *)
Definition leaves (e : ErrorX) : list string := Error <$> errs e.

(** One round of the loop of [append], on a non-nil [err]. *)
Definition append1 (e : ErrorX) (err : error) : ErrorX :=
  if decide (Error err ∈ uniqErrs e) then e
  else {| kind := kind e;
          attrs := attrs e;
          errs := errs e ++ [err];
          uniqErrs := {[ Error err ]} ∪ uniqErrs e |}.

(** [func (e *ErrorX) append(errs ...error)]: [err.Error()] on a nil
    [err] panics. *)
Definition append (e : ErrorX) (errs : list (option error))
    : outcome ErrorX :=
  foldl (λ acc err, e ← acc; err ← deref err; Ok (append1 e err))
        (Ok e) errs.

(** [func (e *ErrorX) Errors() []error] *)
Definition Errors (e : ErrorX) : list error := errs e.

(** [func (e *ErrorX) Attrs() []slog.Attr] *)
Definition Attrs (e : ErrorX) : list (Attr slogValue) :=
  maps_Values (attrs e).

(** [func (e *ErrorX) Cause() error] *)
Definition Cause (e : ErrorX) : option error :=
  match errs e with
  | err :: _ => Some err
  | [] => None
  end.

(** [func New(format string, args ...interface{}) *ErrorX], on the
    message that [fmt.Errorf] formats. *)
Definition New (msg : string) : ErrorX :=
  append1 emptyErrorX (errorString msg).

(** [func (e *ErrorX) Msgf(format string, args ...interface{})]: nothing
    happens on a nil receiver. *)
Definition Msgf (e : option ErrorX) (msg : string) : option ErrorX :=
  match e with
  | None => None
  | Some e => Some (append1 e (errorString msg))
  end.

(** [func (e *ErrorX) SetKind(kind ErrKind) *ErrorX] *)
Definition SetKind (e : ErrorX) (k : option ErrKind) : ErrorX :=
  {| kind := match kind e with
             | None => k
             | Some _ => CombineErrKinds [kind e; k]
             end;
     attrs := attrs e; errs := errs e; uniqErrs := uniqErrs e |}.

(** One round of the loop of [SetAttr]. *)
Definition SetAttr1 (e : ErrorX) (attr : Attr slogValue) : ErrorX :=
  if decide (attrs e !! Key attr = None
             ∧ Z.of_nat (size (attrs e)) < MaxErrorDepth)
  then {| kind := kind e;
          attrs := <[Key attr := attr]> (attrs e);
          errs := errs e; uniqErrs := uniqErrs e |}
  else e.

(** [func (e *ErrorX) SetAttr(s ...slog.Attr) *ErrorX] *)
Definition SetAttr (e : ErrorX) (s : list (Attr slogValue)) : ErrorX :=
  foldl SetAttr1 e s.

(** The depth guard of [parseError]: [len(to.errs) >= MaxErrorDepth]. *)
Definition depthReached (to : ErrorX) : bool :=
  bool_decide (MaxErrorDepth ≤ Z.of_nat (length (errs to))).

(** [parseError(to, errors.New(errString))]: the depth guard, then the
    [default] case of the type switch. Every recursive call is on a
    strictly shorter string, so the recursion is on a bound [fuel] of the
    length; [parseString] below starts it high enough. *)
Fixpoint parsePlain (fuel : nat) (to : ErrorX) (errString : string)
    : ErrorX :=
  if depthReached to then to
  else
    match fuel with
    | O => to
    | S fuel' =>
        let recurse := λ to part, parsePlain fuel' to (TrimSpace part) in
        if Contains errString DelimArrow then
          foldl recurse to (reverse (Split errString DelimArrow))
        else if Contains errString DelimArrowSerialized then
          foldl recurse to (reverse (Split errString DelimArrowSerialized))
        else if Contains errString DelimSemiColon then
          foldl recurse to (Split errString DelimSemiColon)
        else if Contains errString MultiLineErrPrefix then
          let msg := ReplaceAllEmpty errString MultiLineErrPrefix in
          foldl recurse to (Split msg DelimMultiLine)
        else
          append1 to (errorString errString)
    end.

Definition parseString (to : ErrorX) (errString : string) : ErrorX :=
  parsePlain (S (String.length errString)) to errString.

(** [func parseError(to *ErrorX, err error)] on a non-nil [err] and a
    non-nil [to] (both callers, [FromError] and [Is], pass a fresh
    container): the container after the call, or a panic. *)
Fixpoint parseError_nonnil (to : ErrorX) (err : error) : outcome ErrorX :=
  if depthReached to then Ok to
  else
    match err with
    | errorXPtr v_kind _ v_errs _ =>
        to ← append to (Some <$> v_errs);
        Ok {| kind := CombineErrKinds [kind to; v_kind];
              attrs := attrs to; errs := errs to;
              uniqErrs := uniqErrs to |}
    | joinError s children =>
        to ← foldl (λ acc e, to ← acc; append to [e]) (Ok to) children;
        match children with
        | [] => Ok (parseString to s)
        | _ :: _ => Ok to
        end
    | wrapError s child =>
        match child with
        | Some child => parseError_nonnil to child
        | None => Ok (parseString to s)
        end
    | causeError s cause =>
        to ← append to [cause];
        cause ← deref cause;
        let remaining := ReplaceAllEmpty s (Error cause) in
        Ok (parseString to remaining)
    | errorString s =>
        Ok (parseString to s)
    end.

(** [func parseError(to *ErrorX, err error)] *)
Definition parseError (to : ErrorX) (err : option error)
    : outcome ErrorX :=
  match err with
  | None => Ok to
  | Some err => parseError_nonnil to err
  end.

(** [func FromError(err error) *ErrorX]: the pointer returned is nil
    ([None]) or points to the container. *)
Definition FromError (err : option error) : outcome (option ErrorX) :=
  match err with
  | None => Ok None
  | Some _ =>
      nucleiErr ← parseError emptyErrorX err;
      Ok (Some nucleiErr)
  end.

End methods.
End errkit.

(** ** What the properties are stated with *)

Section vocabulary.
Context {ext : Externals} {order : MapOrder} {cfg : Config}.


(** A string with none of the markers that the [default] case looks for. *)
Definition delimiterFree (s : string) : bool :=
  negb (Contains s DelimArrow)
  && negb (Contains s DelimArrowSerialized)
  && negb (Contains s DelimSemiColon)
  && negb (Contains s MultiLineErrPrefix).


(** The operations that change a container once it exists: [Msgf],
    [SetKind], [SetAttr], and [parseError] into it (as [FromError] and
    [Is] do on a fresh one). *)
Inductive op : Type :=
  | opMsgf (msg : string)
  | opSetKind (k : option ErrKind)
  | opSetAttr (s : list (Attr slogValue))
  | opParseError (err : option error).

Definition runOp (e : ErrorX) (o : op) : outcome ErrorX :=
  match o with
  | opMsgf msg => Ok (default e (Msgf (Some e) msg))
  | opSetKind k => Ok (SetKind e k)
  | opSetAttr s => Ok (SetAttr e s)
  | opParseError err => parseError e err
  end.

Definition run (e : ErrorX) (ops : list op) : outcome ErrorX :=
  foldl (λ acc o, e ← acc; runOp e o) (Ok e) ops.

(** The format that [Error()] is described to have: the kind prefix, the
    attribute group, then the leaves joined by the separator. *)
Definition kindPrefix (e : ErrorX) : string :=
  match kind e with
  | Some k =>
      if decide (ErrKind_String k ≠ EmptyString)
      then "errKind=" +:+ ErrKind_String k +:+ " "
      else EmptyString
  | None => EmptyString
  end.

Definition attrsPrefix (e : ErrorX) : string :=
  if decide (0 < Z.of_nat (size (attrs e)))
  then GroupValue_String (maps_Values (attrs e)) +:+ " "
  else EmptyString.

Definition described (e : ErrorX) : string :=
  kindPrefix e +:+ attrsPrefix e
  +:+ String.concat ErrorSeperator (leaves e).

End vocabulary.

(** Sample surroundings for running the engine on concrete inputs: kinds
    that are their own names and combine to the first one that is set,
    integer attribute values, a group printed as its keys, and maps listed
    in the order of [map_to_list] or in the opposite one. *)
Definition sampleExternals : Externals :=
  {| ErrKind := string;
     ErrKind_String := id;
     CombineErrKinds := λ ks, default None (head (filter is_Some ks));
     slogValue := Z;
     GroupValue_String := λ l, String.concat " " (Key <$> l) |}.

Program Definition forwardOrder : MapOrder :=
  {| maps_Values := λ A m, (map_to_list m).*2 |}.
Next Obligation. reflexivity. Qed.

Program Definition backwardOrder : MapOrder :=
  {| maps_Values := λ A m, reverse ((map_to_list m).*2) |}.
Next Obligation. intros. apply reverse_Permutation. Qed.

(** ** Serialization: [MarshalJSON] *)

Section serialization.
Context {ext : Externals} {order : MapOrder} {cfg : Config}.

(** The map that [MarshalJSON] hands to [json.Marshal]: the value under
    ["kind"], the one under ["errors"], and the attributes grouped under
    ["attrs"] when that key is set. *)
Record jsonFields : Type := mkJsonFields {
  json_kind : string;
  json_errors : list string;
  json_attrs : option (list (Attr slogValue))
}.

(** [func (e ErrorX) MarshalJSON() ([]byte, error)] up to the call of
    [json.Marshal]: the loop that collects the strings of the leaves, then
    the map literal, whose first value is [e.kind.String()], a method call on
    an interface value that may be nil, then the [attrs] entry. *)
Definition MarshalJSON_map (e : ErrorX) : outcome jsonFields :=
  let tmp := foldl (λ tmp err, tmp ++ [Error err]) [] (errs e) in
  k ← deref (kind e);
  let m := {| json_kind := ErrKind_String k; json_errors := tmp;
              json_attrs := None |} in
  Ok (if decide (0 < Z.of_nat (size (attrs e)))
      then {| json_kind := json_kind m; json_errors := json_errors m;
              json_attrs := Some (maps_Values (attrs e)) |}
      else m).

(** A container that went through operations: the leaves it had are still
    its first leaves, and its attributes are untouched. *)
Definition extends (e e' : ErrorX) : Prop :=
  errs e `prefix_of` errs e' ∧ attrs e' = attrs e.

(** The operations that leave the kind of a container alone. *)
Definition keepsKind (o : op) : bool :=
  match o with
  | opMsgf _ | opSetAttr _ => true
  | opSetKind _ | opParseError _ => false
  end.

End serialization.

(** ** Package [memoize]: what the code generator computes from a function
    declaration ([src/memoize/memoize.go]) *)

Module memoize.

(** [strings.Join(elems, sep)] *)
Definition Join (elems : list string) (sep : string) : string :=
  String.concat sep elems.

(** The verb [%d] of [fmt.Sprintf] on an [int]: decimal digits, with a
    minus sign before a negative number. *)
Definition formatInt (i : Z) : string :=
  DecimalString.NilEmpty.string_of_int (Z.to_int i).

Module FuncValue.

(** [type FuncValue struct] *)
Record t : Type := mk { Index : Z; Name : string; Type_ : string }.

(** [func (f FuncValue) ResultName() string] *)
Definition ResultName (f : t) : string := "result" +:+ formatInt (Index f).

End FuncValue.

Module FunctionDeclaration.

(** [type FunctionDeclaration struct] *)
Record t : Type := mk {
  SourcePackage : string;
  IsExported : bool;
  Name : string;
  Params : list FuncValue.t;
  Results : list FuncValue.t;
  Signature : string
}.

(** [func (f FunctionDeclaration) HasParams() bool] *)
Definition HasParams (f : t) : bool :=
  bool_decide (0 < Z.of_nat (length (Params f))).

(** [func (f FunctionDeclaration) ParamsNames() string] *)
Definition ParamsNames (f : t) : string :=
  let params :=
    foldl (λ params param, params ++ [FuncValue.Name param]) []
          (Params f) in
  Join params ",".

(** [func (f FunctionDeclaration) HasReturn() bool] *)
Definition HasReturn (f : t) : bool :=
  bool_decide (0 < Z.of_nat (length (Results f))).

(** [func (f FunctionDeclaration) WantSyncOnce() bool] *)
Definition WantSyncOnce (f : t) : bool := negb (HasParams f).

(** [func (f FunctionDeclaration) SyncOnceVarName() string] *)
Definition SyncOnceVarName (f : t) : string := "once" +:+ Name f.

(** [func (f FunctionDeclaration) WantReturn() bool] *)
Definition WantReturn (f : t) : bool := HasReturn f.

(** [func (f FunctionDeclaration) ResultStructType() string] *)
Definition ResultStructType (f : t) : string := "result" +:+ Name f.

(** [func (f FunctionDeclaration) ResultStructVarName() string] *)
Definition ResultStructVarName (f : t) : string :=
  "v" +:+ ResultStructType f.

(** [func (f FunctionDeclaration) ResultStructFields() string] *)
Definition ResultStructFields (f : t) : string :=
  let results :=
    foldl (λ results result,
             results
             ++ [ResultStructVarName f +:+ "." +:+
                 FuncValue.ResultName result])
          [] (Results f) in
  Join results ",".

End FunctionDeclaration.

(** What [Src] reads of an [ast.Field]: the names of the group
    ([name.String()] of each of [Names]) and the type as [fmt.Sprint]
    prints it. *)
Record Field : Type := mkField { Names : list string; FieldType : string }.

(** The loop of [Src] over [nn.Type.Params.List], and the same loop over
    [nn.Type.Results.List], appending to [acc]: one [FuncValue] for each
    field, with the position of the field as [Index] and the last of its
    names as [Name]. *)
Definition appendValues (acc : list FuncValue.t) (fields : list Field)
    : list FuncValue.t :=
  foldl (λ acc '(idx, field),
           let name := foldl (λ _ name, name) EmptyString (Names field) in
           acc ++ [FuncValue.mk (Z.of_nat idx) name (FieldType field)])
        acc (imap pair fields).

(** The loop of [Src] over the doc comments of an exported function: each
    comment whose text is the memo marker appends the parameters and the
    results; a field list that is nil is skipped. *)
Definition collectValues (doc : list string)
    (params results : option (list Field))
    : list FuncValue.t * list FuncValue.t :=
  foldl (λ '(ps, rs) comment,
           if decide (comment = "// @memo")
           then (match params with
                 | Some l => appendValues ps l
                 | None => ps
                 end,
                 match results with
                 | Some l => appendValues rs l
                 | None => rs
                 end)
           else (ps, rs))
        ([], []) doc.

End memoize.

(** ** Facts about the string functions *)

Section string_facts.
Local Open Scope nat_scope.
Implicit Types s t u sep : string.

Lemma string_app_cons c s t : String c s +:+ t = String c (s +:+ t).
Proof. reflexivity. Qed.

Lemma string_app_nil_r s : s +:+ EmptyString = s.
Proof. induction s as [|c s IH]; [done|]. by rewrite string_app_cons, IH. Qed.

Lemma string_app_assoc s t u : (s +:+ t) +:+ u = s +:+ t +:+ u.
Proof.
  induction s as [|c s IH]; [done|]. by rewrite !string_app_cons, IH.
Qed.

Lemma string_length_app s t :
  String.length (s +:+ t) = String.length s + String.length t.
Proof.
  induction s as [|c s IH]; [done|].
  rewrite string_app_cons. simpl. by rewrite IH.
Qed.

Lemma CutPrefix_Some s p r : CutPrefix s p = Some r ↔ s = p +:+ r.
Proof.
  revert s. induction p as [|a p IH]; intros s; simpl.
  - split; [by intros [= ->] | by intros ->].
  - destruct s as [|c s]; [by split|].
    rewrite string_app_cons.
    destruct (Ascii.eqb_spec a c) as [->|Hne].
    + rewrite IH. split; [by intros -> | by intros [= ->]].
    + split; [done | intros [= ? ?]; congruence].
Qed.

Lemma CutPrefix_app sep r : CutPrefix (sep +:+ r) sep = Some r.
Proof. by apply CutPrefix_Some. Qed.

Lemma Cut_unfold s sep :
  Cut s sep =
    match CutPrefix s sep with
    | Some after => Some (EmptyString, after)
    | None =>
        match s with
        | EmptyString => None
        | String c s' =>
            match Cut s' sep with
            | Some (before, after) => Some (String c before, after)
            | None => None
            end
        end
    end.
Proof. by destruct s. Qed.

Lemma Cut_Some s sep before after :
  Cut s sep = Some (before, after) → s = before +:+ sep +:+ after.
Proof.
  revert before. induction s as [|c s IH]; intros before;
    rewrite Cut_unfold.
  - destruct (CutPrefix _ _) as [r|] eqn:Hp; [|done].
    intros [= <- <-]. by apply CutPrefix_Some in Hp.
  - destruct (CutPrefix _ _) as [r|] eqn:Hp.
    + intros [= <- <-]. by apply CutPrefix_Some in Hp.
    + destruct (Cut s sep) as [[b a]|]; [|done].
      intros [= <- <-]. by rewrite string_app_cons, <-(IH b).
Qed.

Lemma Cut_length s sep before after :
  Cut s sep = Some (before, after) →
  String.length s
  = String.length before + String.length sep + String.length after.
Proof.
  intros ->%Cut_Some. rewrite !string_length_app. lia.
Qed.

Lemma sep_length_pos sep : sep ≠ EmptyString → 0 < String.length sep.
Proof. destruct sep; [done | simpl; lia]. Qed.

Lemma Cut_empty sep : sep ≠ EmptyString → Cut EmptyString sep = None.
Proof. by destruct sep. Qed.

Lemma Split_go_fuel sep n m s :
  sep ≠ EmptyString → String.length s ≤ n → String.length s ≤ m →
  Split_go n s sep = Split_go m s sep.
Proof.
  intros Hsep. revert m s. induction n as [|n IH]; intros [|m] s Hn Hm;
    simpl; try done.
  - destruct s; [|simpl in Hn; lia]. by rewrite Cut_empty.
  - destruct s; [|simpl in Hm; lia]. by rewrite Cut_empty.
  - destruct (Cut s sep) as [[b a]|] eqn:Hcut; [|done].
    apply Cut_length in Hcut. apply sep_length_pos in Hsep.
    f_equal. apply IH; lia.
Qed.

Lemma Split_unfold s sep :
  sep ≠ EmptyString →
  Split s sep =
    match Cut s sep with
    | Some (before, after) => before :: Split after sep
    | None => [s]
    end.
Proof.
  intros Hsep. unfold Split.
  destruct (String.length s) as [|n] eqn:Hn; simpl.
  - destruct s; [|done]. by rewrite Cut_empty.
  - destruct (Cut s sep) as [[b a]|] eqn:Hcut; [|done].
    pose proof (Cut_length _ _ _ _ Hcut) as Hlen.
    pose proof (sep_length_pos _ Hsep).
    f_equal. apply Split_go_fuel; [done|lia..].
Qed.

Lemma Split_go_length_le sep n s p :
  p ∈ Split_go n s sep → String.length p ≤ String.length s.
Proof.
  revert s. induction n as [|n IH]; intros s; simpl.
  - by intros ->%list_elem_of_singleton.
  - destruct (Cut s sep) as [[b a]|] eqn:Hcut.
    + apply Cut_length in Hcut.
      intros [->|Hin%IH]%elem_of_cons; lia.
    + by intros ->%list_elem_of_singleton.
Qed.

Lemma Split_length_le s sep p :
  p ∈ Split s sep → String.length p ≤ String.length s.
Proof. apply Split_go_length_le. Qed.

Lemma Split_length_lt s sep p :
  sep ≠ EmptyString → Contains s sep = true → p ∈ Split s sep →
  String.length p < String.length s.
Proof.
  intros Hsep Hc. rewrite Split_unfold by done. unfold Contains in Hc.
  destruct (Cut s sep) as [[b a]|] eqn:Hcut; [|done].
  apply Cut_length in Hcut. apply sep_length_pos in Hsep.
  intros [->|Hin%Split_length_le]%elem_of_cons; lia.
Qed.

Lemma concat_empty_cons s (l : list string) :
  String.concat EmptyString (s :: l) = s +:+ String.concat EmptyString l.
Proof. destruct l; simpl; [by rewrite string_app_nil_r | done]. Qed.

Lemma concat_Split_go_length sep n s :
  String.length (String.concat EmptyString (Split_go n s sep))
  ≤ String.length s.
Proof.
  revert s. induction n as [|n IH]; intros s; [done|].
  cbn [Split_go]. destruct (Cut s sep) as [[b a]|] eqn:Hcut; [|done].
  apply Cut_length in Hcut.
  rewrite concat_empty_cons, string_length_app. specialize (IH a). lia.
Qed.

Lemma ReplaceAllEmpty_length_le s old :
  String.length (ReplaceAllEmpty s old) ≤ String.length s.
Proof.
  destruct old; [done|]. apply concat_Split_go_length.
Qed.

Lemma ReplaceAllEmpty_length_lt s old :
  old ≠ EmptyString → Contains s old = true →
  String.length (ReplaceAllEmpty s old) < String.length s.
Proof.
  intros Hold Hc. destruct old as [|c old']; [done|].
  unfold ReplaceAllEmpty. rewrite Split_unfold by done.
  unfold Contains in Hc.
  destruct (Cut s _) as [[b a]|] eqn:Hcut; [|done].
  apply Cut_length in Hcut. simpl in Hcut.
  rewrite concat_empty_cons, string_length_app.
  pose proof (concat_Split_go_length (String c old') (String.length a) a).
  unfold Split. lia.
Qed.

Lemma rev_app_length s t :
  String.length (String.rev_app s t) = String.length s + String.length t.
Proof.
  revert t. induction s as [|c s IH]; intros t; simpl; [done|].
  rewrite IH. simpl. lia.
Qed.

Lemma rev_length s : String.length (String.rev s) = String.length s.
Proof. unfold String.rev. rewrite rev_app_length. simpl. lia. Qed.

Lemma TrimLeftSpace_length s :
  String.length (TrimLeftSpace s) ≤ String.length s.
Proof.
  remember (String.length s) as n eqn:Hn.
  assert (String.length s ≤ n) as Hle by lia. clear Hn.
  revert s Hle. induction n as [|n IH]; intros s Hle.
  { destruct s; [done | simpl in Hle; lia]. }
  destruct s as [|c0 [|c1 [|c2 s3]]]; cbn [TrimLeftSpace];
    repeat case_match; simpl in *; try lia;
    (etrans; [apply IH; simpl; lia | simpl; lia]).
Qed.

Lemma TrimRightSpace_rev_length s :
  String.length (TrimRightSpace_rev s) ≤ String.length s.
Proof.
  remember (String.length s) as n eqn:Hn.
  assert (String.length s ≤ n) as Hle by lia. clear Hn.
  revert s Hle. induction n as [|n IH]; intros s Hle.
  { destruct s; [done | simpl in Hle; lia]. }
  destruct s as [|c0 [|c1 [|c2 s3]]]; cbn [TrimRightSpace_rev];
    repeat case_match; simpl in *; try lia;
    (etrans; [apply IH; simpl; lia | simpl; lia]).
Qed.

Lemma TrimSpace_length s :
  String.length (TrimSpace s) ≤ String.length s.
Proof.
  unfold TrimSpace, TrimRightSpace. rewrite rev_length.
  etrans; [apply TrimRightSpace_rev_length|].
  rewrite rev_length. apply TrimLeftSpace_length.
Qed.

End string_facts.

(** ** Facts about the engine *)

Section engine_facts.
Context {ext : Externals} {order : MapOrder} {cfg : Config}.
Implicit Types (to e : ErrorX) (err : error) (s : string).

Lemma foldl_ext_in {A B} (f g : A → B → A) (l : list B) (a : A) :
  (∀ a x, x ∈ l → f a x = g a x) → foldl f a l = foldl g a l.
Proof.
  revert a. induction l as [|x l IH]; intros a Hfg; simpl; [done|].
  rewrite Hfg by left. apply IH. intros a' y Hy. apply Hfg. by right.
Qed.

Lemma marker_nonempty :
  DelimArrow ≠ EmptyString ∧ DelimArrowSerialized ≠ EmptyString
  ∧ DelimSemiColon ≠ EmptyString ∧ MultiLineErrPrefix ≠ EmptyString
  ∧ DelimMultiLine ≠ EmptyString.
Proof. by repeat split. Qed.

(** The parts that the [default] case recurses on are strictly shorter
    than the string it split. *)
Lemma part_shorter s sep p :
  sep ≠ EmptyString → Contains s sep = true → p ∈ Split s sep →
  (String.length (TrimSpace p) < String.length s)%nat.
Proof.
  intros Hsep Hc Hp. pose proof (Split_length_lt _ _ _ Hsep Hc Hp).
  pose proof (TrimSpace_length p). lia.
Qed.

Lemma multiline_part_shorter s p :
  Contains s MultiLineErrPrefix = true →
  p ∈ Split (ReplaceAllEmpty s MultiLineErrPrefix) DelimMultiLine →
  (String.length (TrimSpace p) < String.length s)%nat.
Proof.
  intros Hc Hp%Split_length_le.
  pose proof (ReplaceAllEmpty_length_lt s MultiLineErrPrefix) as Hlt.
  pose proof (TrimSpace_length p). specialize (Hlt ltac:(done) Hc). lia.
Qed.

(** Any bound above the length of the string gives the same result: the
    bound never runs out. *)
Lemma parsePlain_fuel n m to s :
  (String.length s < n)%nat → (String.length s < m)%nat →
  parsePlain n to s = parsePlain m to s.
Proof.
  revert m to s. induction n as [|n IH]; intros [|m] to s Hn Hm; try lia.
  cbn [parsePlain]. cbv zeta.
  destruct (depthReached to); [done|].
  destruct marker_nonempty as (? & ? & ? & ? & ?).
  repeat case_match; try done; apply foldl_ext_in; intros to' p Hp.
  - rewrite elem_of_reverse in Hp.
    pose proof (part_shorter s DelimArrow p ltac:(done) ltac:(done) Hp).
    apply IH; lia.
  - rewrite elem_of_reverse in Hp.
    pose proof (part_shorter s DelimArrowSerialized p
                  ltac:(done) ltac:(done) Hp).
    apply IH; lia.
  - pose proof (part_shorter s DelimSemiColon p ltac:(done) ltac:(done) Hp).
    apply IH; lia.
  - pose proof (multiline_part_shorter s p ltac:(done) Hp). apply IH; lia.
Qed.

(** [parseError(to, errors.New(errString))] as the source writes it, the
    recursive calls being calls of the same function. *)
Lemma parseString_unfold to errString :
  parseString to errString =
    if depthReached to then to
    else
      let recurse := λ to part, parseString to (TrimSpace part) in
      if Contains errString DelimArrow then
        foldl recurse to (reverse (Split errString DelimArrow))
      else if Contains errString DelimArrowSerialized then
        foldl recurse to (reverse (Split errString DelimArrowSerialized))
      else if Contains errString DelimSemiColon then
        foldl recurse to (Split errString DelimSemiColon)
      else if Contains errString MultiLineErrPrefix then
        let msg := ReplaceAllEmpty errString MultiLineErrPrefix in
        foldl recurse to (Split msg DelimMultiLine)
      else
        append1 to (errorString errString).
Proof.
  unfold parseString at 1. cbn [parsePlain]. cbv zeta.
  destruct (depthReached to); [done|].
  destruct marker_nonempty as (? & ? & ? & ? & ?).
  repeat case_match; try done; apply foldl_ext_in; intros to' p Hp;
    unfold parseString; apply parsePlain_fuel; try lia.
  - rewrite elem_of_reverse in Hp. by apply (part_shorter _ DelimArrow).
  - rewrite elem_of_reverse in Hp.
    by apply (part_shorter _ DelimArrowSerialized).
  - by apply (part_shorter _ DelimSemiColon).
  - by apply multiline_part_shorter.
Qed.

Lemma parseString_depthReached to s :
  depthReached to = true → parseString to s = to.
Proof. intros H. by rewrite parseString_unfold, H. Qed.

Lemma parseString_delimiterFree to s :
  delimiterFree s = true →
  parseString to s =
    if depthReached to then to else append1 to (errorString s).
Proof.
  unfold delimiterFree. rewrite !andb_true_iff, !negb_true_iff.
  intros [[[H1 H2] H3] H4].
  by rewrite parseString_unfold, H1, H2, H3, H4.
Qed.

End engine_facts.

(** ** The dedup state is kept by every operation *)

Section invariants.
Context {ext : Externals} {order : MapOrder} {cfg : Config}.
Implicit Types (to e : ErrorX) (err : error) (s : string).

(** Induction on an error value along its single-child unwrap chain, the
    only recursion of [parseError] that goes into the value. *)
Lemma error_unwrap_ind (P : error → Prop) :
  (∀ s, P (errorString s)) →
  (∀ s children, P (joinError s children)) →
  (∀ s, P (wrapError s None)) →
  (∀ s child, P child → P (wrapError s (Some child))) →
  (∀ s cause, P (causeError s cause)) →
  (∀ k a es u, P (errorXPtr k a es u)) →
  ∀ err, P err.
Proof.
  intros Hs Hj Hw0 Hw Hc Hx. fix IH 1.
  intros [s|s l|s [child|]|s c|k a es u].
  - apply Hs.
  - apply Hj.
  - apply Hw, IH.
  - apply Hw0.
  - apply Hc.
  - apply Hx.
Qed.

Lemma foldl_invariant {A B} (P : A → Prop) (f : A → B → A) (l : list B) a :
  (∀ a x, P a → P (f a x)) → P a → P (foldl f a l).
Proof.
  intros Hf. revert a. induction l as [|x l IH]; simpl; auto.
Qed.

Lemma foldl_Panic {A B} (f : A → B → outcome A) (l : list B) :
  foldl (λ acc x, a ← acc; f a x) Panic l = Panic.
Proof. induction l; simpl; auto. Qed.

Lemma foldl_outcome_invariant {A B} (P : A → Prop)
    (f : A → B → outcome A) (l : list B) a r :
  (∀ a x r, P a → f a x = Ok r → P r) →
  P a → foldl (λ acc x, a ← acc; f a x) (Ok a) l = Ok r → P r.
Proof.
  intros Hf. revert a. induction l as [|x l IH]; intros a Ha; simpl.
  - by intros [= <-].
  - destruct (f a x) as [a'|] eqn:Hfa.
    + apply IH. by eapply Hf.
    + by rewrite foldl_Panic.
Qed.

Lemma leaves_append1 e err :
  leaves (append1 e err) =
    if decide (Error err ∈ uniqErrs e) then leaves e
    else leaves e ++ [Error err].
Proof.
  unfold append1, leaves. case_decide; [done|]. simpl.
  by rewrite fmap_app.
Qed.









End invariants.

(** ** Classification with the default configuration *)

Section default_configuration.
Context {ext : Externals} {order : MapOrder}.
#[local] Existing Instance defaultConfig.

(** C1. The bound [len(leaves) <= MaxErrorDepth] is not kept: the guard of
    [parseError] is only read on entry and [append] has none, so joining
    four errors, merging a container of four leaves, or four calls of
    [Msgf] each leave four leaves where [MaxErrorDepth] is 3. *)
Theorem C1_leaves_exceed_MaxErrorDepth :
  let four := [errorString "a"; errorString "b"; errorString "c";
               errorString "d"] in
  let grown :=
    Msgf (Msgf (Msgf (Some (New "a")) "b") "c") "d" in
  (∃ x, FromError (Some (joinError "a, b, c, d" (Some <$> four)))
          = Ok (Some x)
        ∧ errs x = four ∧ MaxErrorDepth < Z.of_nat (length (errs x)))
  ∧ (∃ x, grown = Some x
        ∧ errs x = four ∧ MaxErrorDepth < Z.of_nat (length (errs x)))
  ∧ (∃ x y, grown = Some x ∧ FromError (Some (toError x)) = Ok (Some y)
        ∧ errs y = four ∧ MaxErrorDepth < Z.of_nat (length (errs y))).
Proof.
  repeat split; repeat eexists; vm_compute; reflexivity.
Qed.

(** C2 (as amended). Classifying the plain error
    [disk full <- write failed <- save config] gives the leaves
    [save config], [write failed], [disk full] in that order, and
    [Error()] on the result joins them with the separator:
    [save config; write failed; disk full]. *)
Theorem C2_arrow_joined_leaves_and_rendering :
  ∃ x,
    FromError
      (Some (errorString "disk full <- write failed <- save config"))
    = Ok (Some x)
    ∧ leaves x = ["save config"; "write failed"; "disk full"]
    ∧ ErrorX_Error x = "save config; write failed; disk full".
Proof.
  eexists. split; [vm_compute; reflexivity|].
  split; vm_compute; reflexivity.
Qed.

(** C3. The remainder of a cause-style error is not trimmed: for the cause
    [timeout] and the message [timeout while connecting to host] the second
    leaf keeps the space that followed the cause. *)
Theorem C3_cause_remainder_keeps_space :
  ∃ x,
    FromError
      (Some (causeError "timeout while connecting to host"
               (Some (errorString "timeout"))))
    = Ok (Some x)
    ∧ leaves x = ["timeout"; " while connecting to host"]
    ∧ leaves x ≠ ["timeout"; "while connecting to host"].
Proof.
  eexists. split; [vm_compute; reflexivity|].
  split; [vm_compute; reflexivity | vm_compute; discriminate].
Qed.

(** C6. [FromError(nil)] is nil, but classification of a non-nil error can
    panic: the cause of a [CauseError] and the children of a [JoinedError]
    reach [append] unchecked, and [append] calls [Error()] on them, where
    the [WrappedError] case does check its child for nil. *)
Theorem C6_FromError_panics_on_nil_cause :
  FromError None = Ok None
  ∧ FromError (Some (causeError "connection lost" None)) = Panic
  ∧ FromError (Some (joinError "connection lost" [None])) = Panic
  ∧ FromError (Some (wrapError "connection lost" None))
    = Ok (Some (New "connection lost")).
Proof. repeat split; vm_compute; reflexivity. Qed.

End default_configuration.

Section any_configuration.
Context {ext : Externals} {order : MapOrder} {cfg : Config}.
Implicit Types (to e : ErrorX) (err : error) (s : string).

(** C10. Classifying a non-nil error need not give a leaf: for a canonical
    container without leaves, [FromError] returns a container without
    leaves, whose [Cause()] is nil. *)
Theorem C10_FromError_of_leafless_container k a u :
  ∃ x, FromError (Some (errorXPtr k a [] u)) = Ok (Some x)
       ∧ errs x = [] ∧ Cause x = None.
Proof.
  unfold FromError, parseError. cbn [parseError_nonnil].
  destruct (depthReached emptyErrorX); eexists; (split; [reflexivity|done]).
Qed.

End any_configuration.

Section claims.
Context {ext : Externals} {order : MapOrder} {cfg : Config}.
Implicit Types (to e : ErrorX) (err : error) (s : string).





Lemma parseError_nonnil_depthReached to err :
  depthReached to = true → parseError_nonnil to err = Ok to.
Proof. intros H. destruct err; cbn [parseError_nonnil]; by rewrite H. Qed.


Lemma depthReached_empty :
  0 < MaxErrorDepth → depthReached emptyErrorX = false.
Proof.
  intros H. unfold depthReached. apply bool_decide_eq_false. simpl. lia.
Qed.


End claims.

(** ** Markers inside joined strings *)

Section marker_facts.
Implicit Types s t a r sep : string.

Lemma CutSuffix_unfold s suffix :
  CutSuffix s suffix =
    if String.eqb s suffix then Some EmptyString
    else match s with
         | EmptyString => None
         | String c s' => String c <$> CutSuffix s' suffix
         end.
Proof. by destruct s. Qed.

Lemma CutSuffix_app t suffix : CutSuffix (t +:+ suffix) suffix = Some t.
Proof.
  induction t as [|c t IH]; rewrite CutSuffix_unfold.
  - change (EmptyString +:+ suffix) with suffix.
    by rewrite String.eqb_refl.
  - rewrite string_app_cons.
    destruct (String.eqb_spec (String c (t +:+ suffix)) suffix) as [Heq|_].
    + apply (f_equal String.length) in Heq. simpl in Heq.
      rewrite string_length_app in Heq. lia.
    + by rewrite IH.
Qed.

Lemma TrimSuffix_app t suffix : TrimSuffix (t +:+ suffix) suffix = t.
Proof. unfold TrimSuffix. by rewrite CutSuffix_app. Qed.

Lemma Cut_None_cons c s sep : Cut (String c s) sep = None → Cut s sep = None.
Proof.
  rewrite Cut_unfold. destruct (CutPrefix _ _); [done|].
  by destruct (Cut s sep) as [[? ?]|].
Qed.

Lemma Cut_None_CutPrefix s sep : Cut s sep = None → CutPrefix s sep = None.
Proof. rewrite Cut_unfold. by destruct (CutPrefix _ _). Qed.

Lemma Cut_cons_None c s sep :
  CutPrefix (String c s) sep = None → Cut s sep = None →
  Cut (String c s) sep = None.
Proof. intros H1 H2. by rewrite Cut_unfold, H1, H2. Qed.

Lemma Cut_cons_ne c x m s :
  c ≠ x → Cut s (String x m) = None → Cut (String c s) (String x m) = None.
Proof.
  intros Hne Hs. apply Cut_cons_None; [|done]. simpl.
  by destruct (Ascii.eqb_spec x c).
Qed.

(** A two-byte marker cannot start inside [a] or straddle its end, when
    [a] does not contain it and what follows [a] does not start with the
    marker's second byte. *)
Lemma CutPrefix_app_marker2 x y c a r :
  Cut (String c a) (String x (String y EmptyString)) = None →
  (∀ r', r ≠ String y r') →
  CutPrefix (String c (a +:+ r)) (String x (String y EmptyString)) = None.
Proof.
  intros Ha Hr.
  destruct (CutPrefix _ _) as [r'|] eqn:Hp; [exfalso|done].
  apply CutPrefix_Some in Hp. injection Hp as -> Hp.
  destruct a as [|d a].
  - by apply (Hr r').
  - injection Hp as -> _. apply Cut_None_CutPrefix in Ha.
    simpl in Ha. by rewrite !Ascii.eqb_refl in Ha.
Qed.

Lemma Cut_app_no_marker2 x y a r :
  Cut a (String x (String y EmptyString)) = None →
  Cut r (String x (String y EmptyString)) = None →
  (∀ r', r ≠ String y r') →
  Cut (a +:+ r) (String x (String y EmptyString)) = None.
Proof.
  intros Ha Hr Hy. induction a as [|c a IH]; [done|].
  rewrite string_app_cons. apply Cut_cons_None.
  - by apply CutPrefix_app_marker2.
  - apply IH. by eapply Cut_None_cons.
Qed.

Lemma Cut_app_marker2 x y a r :
  x ≠ y → Cut a (String x (String y EmptyString)) = None →
  Cut (a +:+ String x (String y r)) (String x (String y EmptyString))
  = Some (a, r).
Proof.
  intros Hxy Ha. induction a as [|c a IH].
  - rewrite Cut_unfold.
    change (EmptyString +:+ String x (String y r))
      with (String x (String y EmptyString) +:+ r).
    by rewrite CutPrefix_app.
  - rewrite string_app_cons, Cut_unfold.
    rewrite CutPrefix_app_marker2; [|done|by intros r' [= ? _]].
    by rewrite IH by (by eapply Cut_None_cons).
Qed.

Lemma Contains_false s sep : Contains s sep = false ↔ Cut s sep = None.
Proof. unfold Contains. by destruct (Cut s sep). Qed.

End marker_facts.

(** ** Rendering *)

Section rendering.
Context {ext : Externals} {order : MapOrder} {cfg : Config}.
Implicit Types (e : ErrorX) (s sb : string).

Lemma foldl_leaves_app sb (l : list string) :
  foldl (λ sb leaf, sb +:+ leaf +:+ ErrorSeperator) sb l
  = sb +:+ foldr (λ leaf acc, leaf +:+ ErrorSeperator +:+ acc)
                 EmptyString l.
Proof.
  revert sb. induction l as [|x l IH]; intros sb; simpl.
  - by rewrite string_app_nil_r.
  - by rewrite IH, !string_app_assoc.
Qed.

Lemma foldr_leaves_concat (l : list string) :
  l ≠ [] →
  foldr (λ leaf acc, leaf +:+ ErrorSeperator +:+ acc) EmptyString l
  = String.concat ErrorSeperator l +:+ ErrorSeperator.
Proof.
  induction l as [|x l IH]; [done|]. intros _.
  destruct l as [|y l]; [simpl; by rewrite string_app_nil_r|].
  remember (y :: l) as l' eqn:Hl'. cbn [foldr].
  rewrite IH by (by subst l'). subst l'.
  change (String.concat ErrorSeperator (x :: y :: l))
    with (x +:+ ErrorSeperator +:+ String.concat ErrorSeperator (y :: l)).
  by rewrite !string_app_assoc.
Qed.

(** What [Error()] writes before it trims: the described string, and after
    each leaf, so also after the last one, the separator. *)
Lemma ErrorX_Error_unfold e :
  ErrorX_Error e =
    TrimSuffix
      (kindPrefix e +:+ attrsPrefix e
       +:+ foldr (λ leaf acc, leaf +:+ ErrorSeperator +:+ acc)
                 EmptyString (leaves e))
      ErrorSeperator.
Proof.
  unfold ErrorX_Error, render. rewrite foldl_leaves_app.
  fold (kindPrefix e) (leaves e). f_equal.
  rewrite <-(string_app_assoc (kindPrefix e) (attrsPrefix e)). f_equal.
  unfold attrsPrefix. case_decide; by rewrite ?string_app_nil_r.
Qed.

(** With at least one leaf, [Error()] is the described string. *)
Lemma ErrorX_Error_with_leaves e :
  errs e ≠ [] → ErrorX_Error e = described e.
Proof.
  intros He. rewrite ErrorX_Error_unfold, foldr_leaves_concat.
  - unfold described. rewrite <-!string_app_assoc. apply TrimSuffix_app.
  - unfold leaves. by destruct (errs e).
Qed.

Lemma append1_fresh e err :
  Error err ∉ uniqErrs e →
  append1 e err =
    {| kind := kind e; attrs := attrs e; errs := errs e ++ [err];
       uniqErrs := {[ Error err ]} ∪ uniqErrs e |}.
Proof. intros H. unfold append1. by rewrite decide_False. Qed.

Lemma parseString_fresh_leaf to s :
  delimiterFree s = true → depthReached to = false → s ∉ uniqErrs to →
  parseString to s =
    {| kind := kind to; attrs := attrs to;
       errs := errs to ++ [errorString s];
       uniqErrs := {[ s ]} ∪ uniqErrs to |}.
Proof.
  intros Hs Hd Hin. rewrite parseString_delimiterFree, Hd by done.
  by rewrite append1_fresh.
Qed.

End rendering.

Section roundtrip.
Context {ext : Externals} {order : MapOrder}.
#[local] Existing Instance defaultConfig.
Implicit Types (e : ErrorX) (a b c : string).

Lemma delimiterFree_Cut s :
  delimiterFree s = true →
  Cut s DelimArrow = None ∧ Cut s DelimSemiColon = None
  ∧ Cut s MultiLineErrPrefix = None.
Proof.
  unfold delimiterFree. rewrite !andb_true_iff, !negb_true_iff.
  rewrite !Contains_false. by intros [[[? _] ?] ?].
Qed.

Lemma joined_no_arrow a b c :
  Cut a DelimArrow = None → Cut b DelimArrow = None →
  Cut c DelimArrow = None →
  Contains (a +:+ "; " +:+ b +:+ "; " +:+ c) DelimArrow = false.
Proof.
  intros Ha Hb Hc. apply Contains_false.
  assert (∀ t, Cut t DelimArrow = None →
               Cut ("; " +:+ t) DelimArrow = None) as Hsep.
  { intros t Ht. change ("; " +:+ t) with (String ";" (String " " t)).
    by do 2 (apply Cut_cons_ne; [done|]). }
  apply Cut_app_no_marker2; [done| |done].
  apply Hsep, Cut_app_no_marker2; [done| |done].
  by apply Hsep.
Qed.

Lemma joined_Split a b c :
  Cut a DelimSemiColon = None → Cut b DelimSemiColon = None →
  Cut c DelimSemiColon = None →
  Contains (a +:+ "; " +:+ b +:+ "; " +:+ c) DelimSemiColon = true
  ∧ Split (a +:+ "; " +:+ b +:+ "; " +:+ c) DelimSemiColon = [a; b; c].
Proof.
  intros Ha Hb Hc.
  assert (∀ t r, Cut t DelimSemiColon = None →
                 Cut (t +:+ "; " +:+ r) DelimSemiColon = Some (t, r))
    as Hcut.
  { intros t r Ht. by apply (Cut_app_marker2 ";" " "). }
  split.
  - unfold Contains. by rewrite Hcut.
  - rewrite Split_unfold, Hcut by done.
    rewrite Split_unfold, Hcut by done.
    by rewrite Split_unfold, Hc.
Qed.

(** C5 (as amended). For a container without kind prefix and without
    attributes whose three leaves render to pairwise distinct strings [a],
    [b], [c] that hold no marker and no leading or trailing white space,
    [Error()] is [a; b; c] and classifying the plain error with that
    message gives the leaves [a], [b], [c] in that order. *)
Theorem C5_render_then_classify e a b c :
  leaves e = [a; b; c] →
  kindPrefix e = EmptyString → attrs e = ∅ →
  NoDup [a; b; c] →
  delimiterFree a = true → delimiterFree b = true →
  delimiterFree c = true →
  TrimSpace a = a → TrimSpace b = b → TrimSpace c = c →
  ErrorX_Error e = a +:+ "; " +:+ b +:+ "; " +:+ c
  ∧ ∃ x, FromError (Some (errorString (ErrorX_Error e))) = Ok (Some x)
         ∧ leaves x = [a; b; c].
Proof.
  intros Hl Hk Hat Hnd Ha Hb Hc Hta Htb Htc.
  assert (ErrorX_Error e = a +:+ "; " +:+ b +:+ "; " +:+ c) as ->.
  { rewrite ErrorX_Error_with_leaves.
    - unfold described, attrsPrefix. by rewrite Hk, Hat, Hl.
    - unfold leaves in Hl. by destruct (errs e). }
  split; [done|].
  pose proof (delimiterFree_Cut _ Ha) as (Ha1 & Ha2 & _).
  pose proof (delimiterFree_Cut _ Hb) as (Hb1 & Hb2 & _).
  pose proof (delimiterFree_Cut _ Hc) as (Hc1 & Hc2 & _).
  pose proof (joined_no_arrow a b c Ha1 Hb1 Hc1) as Harrow.
  pose proof (joined_Split a b c Ha2 Hb2 Hc2) as [Hsemi Hsplit].
  apply NoDup_cons in Hnd as [Hab Hnd].
  apply NoDup_cons in Hnd as [Hbc _].
  apply not_elem_of_cons in Hab as [Hab Hac].
  apply not_elem_of_cons in Hac as [Hac _].
  apply not_elem_of_cons in Hbc as [Hbc _].
  eexists. split; [reflexivity|].
  rewrite parseString_unfold. cbv zeta.
  assert (DelimArrowSerialized = DelimArrow) as -> by done.
  rewrite Harrow, Hsemi, Hsplit. cbn [foldl].
  rewrite Hta, Htb, Htc.
  rewrite (parseString_fresh_leaf emptyErrorX a);
    [|done|done|apply not_elem_of_empty].
  rewrite (parseString_fresh_leaf _ b); [|done|done|simpl].
  2: { by intros [?%elem_of_singleton|?%elem_of_empty]%elem_of_union. }
  rewrite (parseString_fresh_leaf _ c); [|done|done|simpl].
  2: { by intros [?%elem_of_singleton|
                  [?%elem_of_singleton|?%elem_of_empty]%elem_of_union
                 ]%elem_of_union. }
  done.
Qed.

End roundtrip.

(** ** Attributes *)

Section attributes.
Context {ext : Externals} {order : MapOrder} {cfg : Config}.
Implicit Types (e : ErrorX) (attr : Attr slogValue).

Lemma SetAttr1_new e attr :
  attrs e !! Key attr = None → Z.of_nat (size (attrs e)) < MaxErrorDepth →
  SetAttr1 e attr =
    {| kind := kind e; attrs := <[Key attr := attr]> (attrs e);
       errs := errs e; uniqErrs := uniqErrs e |}.
Proof. intros ??. unfold SetAttr1. by rewrite decide_True. Qed.

Lemma SetAttr1_present e attr :
  attrs e !! Key attr ≠ None → SetAttr1 e attr = e.
Proof. intros ?. unfold SetAttr1. rewrite decide_False; [done|tauto]. Qed.

(** C9 (as amended). [SetAttr] stores an attribute exactly when its key is
    new and fewer than [MaxErrorDepth] attributes are stored, so of two
    attributes with the same key the first stays. [Attrs] lists the stored
    attributes, each once, in the order the runtime picks: the container
    does not record the order of insertion, and inserting two new
    attributes in either order gives the same container. *)
Theorem C9_SetAttr_keeps_first_value_without_order :
  (∀ e attr,
     attrs (SetAttr e [attr]) =
       if decide (attrs e !! Key attr = None
                  ∧ Z.of_nat (size (attrs e)) < MaxErrorDepth)
       then <[Key attr := attr]> (attrs e)
       else attrs e)
  ∧ (∀ e k v1 v2,
       attrs e !! k = None → Z.of_nat (size (attrs e)) < MaxErrorDepth →
       attrs (SetAttr e [mkAttr k v1; mkAttr k v2])
       = <[k := mkAttr k v1]> (attrs e))
  ∧ (∀ e s,
       Attrs (SetAttr e s) ≡ₚ (map_to_list (attrs (SetAttr e s))).*2)
  ∧ (∀ e a1 a2,
       Key a1 ≠ Key a2 →
       attrs e !! Key a1 = None → attrs e !! Key a2 = None →
       Z.of_nat (size (attrs e)) + 1 < MaxErrorDepth →
       SetAttr e [a1; a2] = SetAttr e [a2; a1]).
Proof.
  split_and!.
  - intros e attr. unfold SetAttr, SetAttr1. simpl. by case_decide.
  - intros e k v1 v2 Hk Hsize. unfold SetAttr. simpl.
    rewrite (SetAttr1_new e) by done.
    rewrite SetAttr1_present; [done|]. simpl. by rewrite lookup_insert_eq.
  - intros e s. apply maps_Values_perm.
  - intros e a1 a2 Hne H1 H2 Hsize. unfold SetAttr. simpl.
    rewrite (SetAttr1_new e a1), (SetAttr1_new e a2) by (done || lia).
    rewrite !SetAttr1_new; simpl;
      rewrite ?lookup_insert_ne, ?map_size_insert_None by done;
      try done; try lia.
    f_equal. by apply insert_insert_ne.
Qed.

End attributes.

(** ** Runs on concrete inputs *)

Section sample_runs.
#[local] Existing Instances sampleExternals forwardOrder defaultConfig.

(** The classification of [disk full <- write failed <- save config] does
    not render back to that string. *)
Lemma C2_counterexample :
  let msg := "disk full <- write failed <- save config" in
  ¬ ∃ x, FromError (Some (errorString msg)) = Ok (Some x)
         ∧ leaves x = ["save config"; "write failed"; "disk full"]
         ∧ ErrorX_Error x = msg.
Proof.
  intros msg (x & Hx & _ & Herr). vm_compute in Hx.
  injection Hx as <-. vm_compute in Herr. discriminate.
Qed.



(** A leaf with a leading space does not come back from its rendering, and
    a container with a kind does not render to its leaves alone. *)
Lemma C5_counterexample :
  let spaced :=
    {| kind := None; attrs := ∅;
       errs := [errorString " a"; errorString "b"; errorString "c"];
       uniqErrs := {[ " a"; "b"; "c" ]} |} in
  let tagged :=
    {| kind := Some "network"; attrs := ∅;
       errs := [errorString "a"; errorString "b"; errorString "c"];
       uniqErrs := {[ "a"; "b"; "c" ]} |} in
  run emptyErrorX [opMsgf " a"; opMsgf "b"; opMsgf "c"] = Ok spaced
  ∧ forallb delimiterFree (leaves spaced) = true
  ∧ (¬ ∃ x, FromError (Some (errorString (ErrorX_Error spaced)))
            = Ok (Some x)
            ∧ leaves x = [" a"; "b"; "c"])
  ∧ run emptyErrorX [opMsgf "a"; opMsgf "b"; opMsgf "c";
                     opSetKind (Some "network")] = Ok tagged
  ∧ forallb delimiterFree (leaves tagged) = true
  ∧ ErrorX_Error tagged ≠ "a; b; c".
Proof.
  intros spaced tagged. split_and!.
  - vm_compute. reflexivity.
  - vm_compute. reflexivity.
  - intros (x & Hx & Hl). vm_compute in Hx. injection Hx as <-.
    vm_compute in Hl. discriminate.
  - vm_compute. reflexivity.
  - vm_compute. reflexivity.
  - vm_compute. discriminate.
Qed.

Lemma C5_witness :
  let e :=
    {| kind := None; attrs := ∅;
       errs := [errorString "disk full"; errorString "write failed";
                errorString "save config"];
       uniqErrs := {[ "disk full"; "write failed"; "save config" ]} |} in
  ErrorX_Error e = "disk full; write failed; save config"
  ∧ ∃ x, FromError (Some (errorString (ErrorX_Error e))) = Ok (Some x)
         ∧ leaves x = ["disk full"; "write failed"; "save config"].
Proof.
  intros e.
  apply (@C5_render_then_classify sampleExternals forwardOrder e
           "disk full" "write failed" "save config");
    try (vm_compute; reflexivity).
  repeat (apply NoDup_cons; split;
          [rewrite ?elem_of_cons, elem_of_nil; intros H;
           repeat destruct H as [H|H]; done|]).
  apply NoDup_nil_2.
Defined.


(** C8. With no leaf, [TrimSuffix] cuts into what was written before the
    leaves: a kind named [net;] loses its last two bytes, and with a space
    as the separator every prefix loses the space that ends it. *)
Theorem C8_Error_trims_the_prefix_of_a_leafless_container :
  let e :=
    {| kind := Some "net;"; attrs := ∅; errs := []; uniqErrs := ∅ |} in
  let e' :=
    {| kind := Some "network"; attrs := ∅; errs := []; uniqErrs := ∅ |} in
  let spaceSeparated : Config :=
    {| MaxErrorDepth := 3; ErrorSeperator := " " |} in
  ErrorX_Error (cfg := defaultConfig) e = "errKind=net"
  ∧ described (cfg := defaultConfig) e = "errKind=net; "
  ∧ ErrorX_Error (cfg := spaceSeparated) e' = "errKind=network"
  ∧ described (cfg := spaceSeparated) e' = "errKind=network ".
Proof. repeat split; vm_compute; reflexivity. Qed.

(** No order of iteration is fixed by the insertions: were [Attrs] to
    return the insertion order under every order the runtime may pick, it
    would do so under two opposite ones. *)
Lemma C9_counterexample :
  let inserted := [mkAttr "host" 1; mkAttr "port" 2] in
  ¬ ∀ order : MapOrder,
      Attrs (order := order) (SetAttr emptyErrorX inserted) = inserted.
Proof.
  intros inserted H.
  pose proof (H forwardOrder) as Hf. pose proof (H backwardOrder) as Hb.
  unfold Attrs in Hf, Hb. simpl in Hf, Hb. rewrite Hf in Hb.
  discriminate.
Qed.

Lemma C9_witness :
  attrs (SetAttr emptyErrorX [mkAttr "k" 1; mkAttr "k" 2])
  = <["k" := mkAttr "k" 1]> ∅
  ∧ SetAttr emptyErrorX [mkAttr "host" 1; mkAttr "port" 2]
    = SetAttr emptyErrorX [mkAttr "port" 2; mkAttr "host" 1].
Proof.
  pose proof (@C9_SetAttr_keeps_first_value_without_order
                sampleExternals forwardOrder defaultConfig)
    as (_ & Hfirst & _ & Hcomm).
  split.
  - apply (Hfirst emptyErrorX "k" 1 2);
      [reflexivity | vm_compute; reflexivity].
  - apply (Hcomm emptyErrorX (mkAttr "host" 1) (mkAttr "port" 2));
      [simpl; discriminate | reflexivity | reflexivity
      | vm_compute; reflexivity].
Defined.

End sample_runs.

(** ** Further properties of the container and of classification *)

Section container_properties.
Context {ext : Externals} {order : MapOrder} {cfg : Config}.
Implicit Types (to e : ErrorX) (err : error) (s msg : string).

Lemma kindPrefix_no_kind e : kind e = None → kindPrefix e = EmptyString.
Proof. unfold kindPrefix. by intros ->. Qed.

Lemma attrsPrefix_no_attrs e : attrs e = ∅ → attrsPrefix e = EmptyString.
Proof. unfold attrsPrefix. by intros ->. Qed.

Lemma FromError_depth_nonpositive err :
  MaxErrorDepth ≤ 0 → FromError (Some err) = Ok (Some emptyErrorX).
Proof.
  intros Hmax. unfold FromError, parseError.
  rewrite parseError_nonnil_depthReached; [done|].
  unfold depthReached. apply bool_decide_eq_true. simpl. lia.
Qed.

(** X1. [New(msg)] holds the one leaf [msg], which is its cause, and
    renders to [msg] itself, whatever the separator. *)
Theorem New_renders_its_message msg :
  leaves (New msg) = [msg]
  ∧ Cause (New msg) = Some (errorString msg)
  ∧ ErrorX_Error (New msg) = msg.
Proof.
  unfold New. rewrite append1_fresh by apply not_elem_of_empty.
  split_and!; [done..|].
  rewrite ErrorX_Error_with_leaves by done.
  unfold described. by rewrite kindPrefix_no_kind, attrsPrefix_no_attrs.
Qed.

(** X2. With a [MaxErrorDepth] of zero or less the guard of [parseError]
    holds from the start: every non-nil error, also one whose cause is nil,
    is classified as the empty container. *)
Theorem FromError_without_depth err :
  MaxErrorDepth ≤ 0 → FromError (Some err) = Ok (Some emptyErrorX).
Proof. apply FromError_depth_nonpositive. Qed.

Lemma length_append1 e err :
  (length (errs (append1 e err)) ≤ S (length (errs e)))%nat.
Proof.
  unfold append1. case_decide; simpl; [lia|].
  rewrite length_app. simpl. lia.
Qed.

Lemma depthReached_false to :
  depthReached to = false → Z.of_nat (length (errs to)) < MaxErrorDepth.
Proof. unfold depthReached. intros H%bool_decide_eq_false. lia. Qed.

Lemma parsePlain_within_bound (bound : Z) n to s :
  MaxErrorDepth ≤ bound →
  Z.of_nat (length (errs to)) ≤ bound →
  Z.of_nat (length (errs (parsePlain n to s))) ≤ bound.
Proof.
  intros Hb. revert to s. induction n as [|n IH]; intros to s Hto;
    cbn [parsePlain]; cbv zeta;
    destruct (depthReached to) eqn:Hd; try done.
  apply depthReached_false in Hd.
  repeat case_match;
    try (apply (foldl_invariant
                  (λ to, Z.of_nat (length (errs to)) ≤ bound));
         [intros; by apply IH | done]).
  pose proof (length_append1 to (errorString s)). lia.
Qed.

(** X3. For a plain error the bound does hold: text is decomposed through
    guarded calls only, so classifying [errors.New(s)] into a container
    never takes it beyond [MaxErrorDepth] leaves, or beyond the number it
    already had. *)
Theorem plain_text_stays_within_MaxErrorDepth to s :
  ∃ to', parseError to (Some (errorString s)) = Ok to'
         ∧ Z.of_nat (length (errs to'))
           ≤ Z.max (Z.of_nat (length (errs to))) MaxErrorDepth.
Proof.
  exists (parseString to s). split.
  - unfold parseError. cbn [parseError_nonnil].
    destruct (depthReached to) eqn:Hd; [|done].
    by rewrite parseString_depthReached.
  - apply parsePlain_within_bound; lia.
Qed.

Lemma extends_refl e : extends e e.
Proof. by split. Qed.

Lemma extends_trans e1 e2 e3 : extends e1 e2 → extends e2 e3 → extends e1 e3.
Proof.
  intros [H1 H2] [H3 H4]. split; [by etrans | congruence].
Qed.

Lemma append1_extends e err : extends e (append1 e err).
Proof.
  unfold append1. case_decide; [apply extends_refl|].
  split; [by apply prefix_app_r | done].
Qed.

Lemma append_extends e l e' : append e l = Ok e' → extends e e'.
Proof.
  unfold append.
  apply (foldl_outcome_invariant (extends e)); [|apply extends_refl].
  intros a [x|] r Ha; simpl; [|done].
  intros [= <-]. eapply extends_trans; [done|apply append1_extends].
Qed.

Lemma parsePlain_extends n to s : extends to (parsePlain n to s).
Proof.
  revert to s. induction n as [|n IH]; intros to s; cbn [parsePlain];
    cbv zeta; destruct (depthReached to); try apply extends_refl.
  repeat case_match;
    try (apply (foldl_invariant (extends to)); [|apply extends_refl];
         intros a x Ha; eapply extends_trans; [done|apply IH]).
  apply append1_extends.
Qed.

Lemma parseError_nonnil_extends err to to' :
  parseError_nonnil to err = Ok to' → extends to to'.
Proof.
  revert to to'.
  induction err as [s|s l|s|s child IH|s c|k a es u] using error_unwrap_ind;
    intros to to'; cbn [parseError_nonnil];
    destruct (depthReached to);
    try (intros [= <-]; apply extends_refl).
  - intros [= <-]. apply parsePlain_extends.
  - destruct (foldl _ _ l) as [to1|] eqn:Hfold; [|done].
    assert (extends to to1) as H1.
    { revert Hfold.
      apply (foldl_outcome_invariant (extends to)); [|apply extends_refl].
      intros a x r Ha Hr%append_extends. by eapply extends_trans. }
    simpl. destruct l; intros [= <-]; [|done].
    eapply extends_trans; [done|apply parsePlain_extends].
  - intros [= <-]. apply parsePlain_extends.
  - apply IH.
  - destruct (append to [c]) as [to1|] eqn:Happ; [|done].
    apply append_extends in Happ.
    simpl. destruct c as [c|]; simpl; [|done].
    intros [= <-]. eapply extends_trans; [done|apply parsePlain_extends].
  - destruct (append to _) as [to1|] eqn:Happ; [|done].
    apply append_extends in Happ. simpl. by intros [= <-].
Qed.

Lemma run_prefix_of e ops e' :
  run e ops = Ok e' → errs e `prefix_of` errs e'.
Proof.
  unfold run.
  apply (foldl_outcome_invariant (λ a, errs e `prefix_of` errs a)); [|done].
  intros a o r Ha. destruct o as [msg|k|l|[err|]]; simpl.
  - intros [= <-]. etrans; [done|]. apply append1_extends.
  - by intros [= <-].
  - intros [= <-]. unfold SetAttr.
    apply (foldl_invariant (λ a, errs e `prefix_of` errs a)); [|done].
    intros b x Hb. unfold SetAttr1. by case_decide.
  - intros [H _]%parseError_nonnil_extends. by etrans.
  - by intros [= <-].
Qed.

(** X4. No operation removes, replaces or reorders a leaf: after any
    sequence of [Msgf], [SetKind], [SetAttr] and [parseError] the leaves the
    container had are still its first leaves, in the same order. *)
Theorem operations_only_add_leaves e ops e' :
  run e ops = Ok e' → errs e `prefix_of` errs e'.
Proof. apply run_prefix_of. Qed.

(** X5. The cause of a container, once there is one, stays its cause under
    every later operation. *)
Theorem Cause_is_stable e ops e' c :
  run e ops = Ok e' → Cause e = Some c → Cause e' = Some c.
Proof.
  intros [k Hk]%run_prefix_of. unfold Cause. rewrite Hk.
  by destruct (errs e).
Qed.

(** X6. A container that [FromError] returns has no attributes: those of a
    classified [*ErrorX] are not carried over. *)
Theorem FromError_has_no_attrs err x :
  FromError (Some err) = Ok (Some x) → attrs x = ∅.
Proof.
  unfold FromError, parseError.
  destruct (parseError_nonnil emptyErrorX err) as [to'|] eqn:Hp; [|done].
  apply parseError_nonnil_extends in Hp as [_ Hattrs].
  simpl. by intros [= <-].
Qed.

End container_properties.

Section reclassification.
Context {ext : Externals} {order : MapOrder} {cfg : Config}.
Implicit Types (to e v : ErrorX) (err : error) (s msg : string).


Lemma foldl_append1_fresh e (l : list error) :
  NoDup (Error <$> l) → (∀ x, x ∈ l → Error x ∉ uniqErrs e) →
  foldl append1 e l =
    {| kind := kind e; attrs := attrs e; errs := errs e ++ l;
       uniqErrs := list_to_set (Error <$> l) ∪ uniqErrs e |}.
Proof.
  revert e. induction l as [|x l IH]; intros e Hnd Hfresh; simpl.
  - rewrite app_nil_r, (left_id_L ∅ (∪)). by destruct e.
  - apply NoDup_cons in Hnd as [Hx Hnd].
    rewrite (append1_fresh e x) by (apply Hfresh; left).
    rewrite IH; simpl; [|done|].
    + f_equal; [by rewrite <-app_assoc|].
      rewrite !(assoc_L (∪)). f_equal. apply (comm_L (∪)).
    + intros y Hy [Heq%elem_of_singleton|Hin]%elem_of_union.
      * apply Hx. rewrite <-Heq. by apply list_elem_of_fmap_2.
      * by apply (Hfresh y); [right|].
Qed.




Lemma SetAttr1_attrs_inv e attr :
  Z.of_nat (size (attrs e)) ≤ MaxErrorDepth →
  (∀ k a, attrs e !! k = Some a → Key a = k) →
  Z.of_nat (size (attrs (SetAttr1 e attr))) ≤ MaxErrorDepth
  ∧ (∀ k a, attrs (SetAttr1 e attr) !! k = Some a → Key a = k).
Proof.
  intros Hsize Hkeys. unfold SetAttr1. case_decide as Hd; [|done].
  destruct Hd as [Hnone Hlt]. simpl. split.
  - rewrite map_size_insert_None by done. lia.
  - intros k a. rewrite lookup_insert. case_decide; [|apply Hkeys].
    by intros [= <-].
Qed.

(** X9. The attributes do keep the bound: in every container reached from
    the empty one there are at most [MaxErrorDepth] attributes (when that is
    not negative), each stored under its own key. *)
Theorem attrs_stay_within_MaxErrorDepth ops e :
  0 ≤ MaxErrorDepth → run emptyErrorX ops = Ok e →
  Z.of_nat (size (attrs e)) ≤ MaxErrorDepth
  ∧ (∀ k a, attrs e !! k = Some a → Key a = k).
Proof.
  intros Hmax. unfold run.
  apply (foldl_outcome_invariant
           (λ e, Z.of_nat (size (attrs e)) ≤ MaxErrorDepth
                 ∧ (∀ k a, attrs e !! k = Some a → Key a = k))).
  - intros a o r Ha. destruct o as [msg|k|l|[err|]]; simpl.
    + intros [= <-]. destruct (append1_extends a (errorString msg)) as [_ ->].
      done.
    + by intros [= <-].
    + intros [= <-]. unfold SetAttr.
      apply (foldl_invariant
               (λ e, Z.of_nat (size (attrs e)) ≤ MaxErrorDepth
                     ∧ (∀ k a, attrs e !! k = Some a → Key a = k)));
        [|done].
      intros b x [? ?]. by apply SetAttr1_attrs_inv.
    + intros [_ ->]%parseError_nonnil_extends. done.
    + by intros [= <-].
  - split; [simpl; rewrite map_size_empty; simpl; lia|].
    intros k a. simpl. by rewrite lookup_empty.
Qed.

Lemma SetAttr1_keeps_stored e attr k a :
  attrs e !! k = Some a → attrs (SetAttr1 e attr) !! k = Some a.
Proof.
  intros Hk. unfold SetAttr1. case_decide as Hd; [|done].
  destruct Hd as [Hnone _]. simpl. rewrite lookup_insert_ne; [done|].
  intros Heq. rewrite Heq in Hnone. congruence.
Qed.

Lemma SetAttr1_size e attr :
  (size (attrs e) ≤ size (attrs (SetAttr1 e attr)))%nat.
Proof.
  unfold SetAttr1. case_decide as Hd; [|done].
  destruct Hd as [Hnone _]. simpl. rewrite map_size_insert_None by done. lia.
Qed.

(** X10. [SetAttr] never replaces or removes an attribute that is stored. *)
Theorem SetAttr_keeps_stored_attributes e (s : list (Attr slogValue)) k a :
  attrs e !! k = Some a → attrs (SetAttr e s) !! k = Some a.
Proof.
  unfold SetAttr.
  apply (foldl_invariant (λ e, attrs e !! k = Some a)).
  intros b x. apply SetAttr1_keeps_stored.
Qed.

Lemma SetAttr1_settled e attr (x : Attr slogValue) :
  attrs e !! Key x ≠ None ∨ MaxErrorDepth ≤ Z.of_nat (size (attrs e)) →
  attrs (SetAttr1 e attr) !! Key x ≠ None
  ∨ MaxErrorDepth ≤ Z.of_nat (size (attrs (SetAttr1 e attr))).
Proof.
  intros [Hk|Hsize].
  - left. destruct (attrs e !! Key x) as [a|] eqn:Ha; [|done].
    by rewrite (SetAttr1_keeps_stored e attr (Key x) a).
  - right. pose proof (SetAttr1_size e attr). lia.
Qed.

Lemma SetAttr1_settles e (x : Attr slogValue) :
  attrs (SetAttr1 e x) !! Key x ≠ None
  ∨ MaxErrorDepth ≤ Z.of_nat (size (attrs (SetAttr1 e x))).
Proof.
  unfold SetAttr1. case_decide as Hd.
  - left. simpl. by rewrite lookup_insert_eq.
  - destruct (attrs e !! Key x) eqn:Hk; [by left|]. right.
    destruct (decide (MaxErrorDepth ≤ Z.of_nat (size (attrs e)))); [done|].
    exfalso. apply Hd. split; [done|lia].
Qed.

Lemma SetAttr_settles e (s : list (Attr slogValue)) (x : Attr slogValue) :
  x ∈ s →
  attrs (SetAttr e s) !! Key x ≠ None
  ∨ MaxErrorDepth ≤ Z.of_nat (size (attrs (SetAttr e s))).
Proof.
  unfold SetAttr. revert e. induction s as [|y s IH]; intros e;
    [by intros ?%elem_of_nil|].
  intros [->|Hx]%elem_of_cons; simpl; [|by apply IH].
  apply (foldl_invariant
           (λ e, attrs e !! Key y ≠ None
                 ∨ MaxErrorDepth ≤ Z.of_nat (size (attrs e)))).
  - intros b z. apply SetAttr1_settled.
  - apply SetAttr1_settles.
Qed.

(** X11. [SetAttr] is idempotent: setting the same attributes again changes
    nothing, whether they were stored or dropped the first time. *)
Theorem SetAttr_idempotent e (s : list (Attr slogValue)) :
  SetAttr (SetAttr e s) s = SetAttr e s.
Proof.
  pose proof (λ x, SetAttr_settles e s x) as Hsettled.
  generalize dependent (SetAttr e s). intros e'.
  unfold SetAttr. induction s as [|y s IH]; intros Hsettled; [done|].
  simpl. assert (SetAttr1 e' y = e') as ->.
  { unfold SetAttr1. rewrite decide_False; [done|].
    intros [Hnone Hlt]. destruct (Hsettled y) as [?|?]; [left|done|lia]. }
  apply IH. intros x Hx. apply Hsettled. by right.
Qed.

Lemma MarshalJSON_errors (l : list error) (acc : list string) :
  foldl (λ tmp err, tmp ++ [Error err]) acc l = acc ++ (Error <$> l).
Proof.
  revert acc. induction l as [|x l IH]; intros acc; simpl.
  - by rewrite app_nil_r.
  - by rewrite IH, <-app_assoc.
Qed.

Lemma run_keepsKind e ops :
  forallb keepsKind ops = true →
  ∃ e', run e ops = Ok e' ∧ kind e' = kind e.
Proof.
  unfold run. revert e. induction ops as [|o ops IH]; intros e Hops.
  - by exists e.
  - simpl in Hops. apply andb_true_iff in Hops as [Ho Hops].
    destruct o as [msg|k|l|err]; try done; simpl.
    + destruct (IH (append1 e (errorString msg)) Hops) as (e' & Hrun & Hk).
      exists e'. split; [exact Hrun|]. rewrite Hk.
      unfold append1. by case_decide.
    + destruct (IH (SetAttr e l) Hops) as (e' & Hrun & Hk).
      exists e'. split; [exact Hrun|]. rewrite Hk. unfold SetAttr.
      apply (foldl_invariant (λ a, kind a = kind e)); [|done].
      intros a x Ha. unfold SetAttr1. by case_decide.
Qed.

(** X12. [MarshalJSON] calls [String()] on the kind without a nil check: on
    a container with a kind the map it builds holds the name of the kind,
    the strings of the leaves in order, and the attributes exactly when
    there are some; on [New(msg)], also after any [Msgf] and [SetAttr], it
    panics. *)
Theorem MarshalJSON_needs_a_kind :
  (∀ e k, kind e = Some k →
     ∃ m, MarshalJSON_map e = Ok m
          ∧ json_kind m = ErrKind_String k
          ∧ json_errors m = leaves e
          ∧ (json_attrs m = None ↔ attrs e = ∅))
  ∧ (∀ msg ops, forallb keepsKind ops = true →
       ∃ e, run (New msg) ops = Ok e ∧ MarshalJSON_map e = Panic).
Proof.
  split.
  - intros e k Hk. unfold MarshalJSON_map. rewrite Hk. simpl.
    eexists. split; [reflexivity|]. rewrite MarshalJSON_errors.
    case_decide as Hsize; simpl.
    + split_and!; [done..|]. split; [done|].
      intros Hempty. rewrite Hempty, map_size_empty in Hsize. simpl in Hsize.
      lia.
    + split_and!; [done..|]. split; [|done]. intros _.
      apply map_size_empty_iff. lia.
  - intros msg ops Hops.
    destruct (run_keepsKind (New msg) ops Hops) as (e & Hrun & Hkind).
    exists e. split; [done|]. unfold MarshalJSON_map. rewrite Hkind.
    unfold New, append1. by case_decide.
Qed.

End reclassification.

(** ** Joined text of any length *)

Section joined_text.
Context {ext : Externals} {order : MapOrder} {cfg : Config}.
Implicit Types (to e : ErrorX) (err : error) (s p : string).
Implicit Types (l t : list string).

Lemma concat_cons2 sep p q l :
  String.concat sep (p :: q :: l) = p +:+ sep +:+ String.concat sep (q :: l).
Proof. reflexivity. Qed.

(** Splitting what was joined by a marker of two different bytes gives the
    parts back, when no part contains the marker. *)
Lemma Split_concat_marker2 x y l :
  x ≠ y → l ≠ [] →
  Forall (λ p, Cut p (String x (String y EmptyString)) = None) l →
  Split (String.concat (String x (String y EmptyString)) l)
        (String x (String y EmptyString)) = l.
Proof.
  intros Hxy Hl Hfree. induction Hfree as [|p l Hp Hfree IH]; [done|].
  destruct l as [|q l].
  - simpl. by rewrite Split_unfold, Hp.
  - rewrite concat_cons2, Split_unfold by done.
    change (String x (String y EmptyString) +:+ ?r)
      with (String x (String y r)).
    rewrite Cut_app_marker2 by done. f_equal. by apply IH.
Qed.

Lemma Contains_concat_marker2 x y p q l :
  x ≠ y → Cut p (String x (String y EmptyString)) = None →
  Contains (String.concat (String x (String y EmptyString)) (p :: q :: l))
           (String x (String y EmptyString)) = true.
Proof.
  intros Hxy Hp. unfold Contains. rewrite concat_cons2.
  change (String x (String y EmptyString) +:+ ?r)
    with (String x (String y r)).
  by rewrite Cut_app_marker2.
Qed.

Lemma semicolon_joined_no_arrow l :
  Forall (λ p, Cut p DelimArrow = None) l →
  Cut (String.concat DelimSemiColon l) DelimArrow = None.
Proof.
  induction 1 as [|p l Hp Hfree IH]; [done|].
  destruct l as [|q l]; [done|]. rewrite concat_cons2.
  change (DelimSemiColon +:+ ?r) with (String ";" (String " " r)).
  apply Cut_app_no_marker2; [done| |done].
  by do 2 (apply Cut_cons_ne; [done|]).
Qed.

(** The loop over the parts: every part that is new and without marker
    becomes a leaf, until the guard holds. *)
Lemma parts_become_leaves t to :
  NoDup t → Forall (λ p, delimiterFree p = true) t →
  (∀ p, p ∈ t → p ∉ uniqErrs to) →
  errs (foldl parseString to t)
  = errs to
    ++ (errorString <$>
          take (Z.to_nat (MaxErrorDepth - Z.of_nat (length (errs to)))) t).
Proof.
  revert to. induction t as [|p t IH]; intros to Hnd Hfree Hnew; simpl.
  { by rewrite take_nil, app_nil_r. }
  apply NoDup_cons in Hnd as [Hp Hnd].
  apply Forall_cons in Hfree as [Hpfree Hfree].
  destruct (depthReached to) eqn:Hd.
  - rewrite parseString_depthReached by done.
    rewrite IH; [|done|done|by intros q Hq; apply Hnew; right].
    apply bool_decide_eq_true in Hd.
    by replace (Z.to_nat _) with 0%nat by lia.
  - rewrite parseString_fresh_leaf by (done || apply Hnew; left).
    apply depthReached_false in Hd.
    rewrite IH; simpl; [|done|done|].
    + rewrite length_app. simpl.
      replace (Z.to_nat (MaxErrorDepth - Z.of_nat (length (errs to))))
        with (S (Z.to_nat
                   (MaxErrorDepth - Z.of_nat (length (errs to) + 1))))
        by lia.
      simpl. by rewrite <-app_assoc.
    + intros q Hq [Heq%elem_of_singleton|Hin]%elem_of_union.
      * by subst q.
      * by apply (Hnew q); [right|].
Qed.

Lemma leaves_of_parts t (n : nat) x :
  errs x = errorString <$> take n t → leaves x = take n t.
Proof.
  intros Hx. unfold leaves. rewrite Hx, <-list_fmap_compose.
  apply list_fmap_id.
Qed.

Lemma foldl_parts to l :
  foldl (λ to part, parseString to (TrimSpace part)) to l
  = foldl parseString to (TrimSpace <$> l).
Proof. revert to. induction l as [|p l IH]; intros to; simpl; auto. Qed.

(** X13. Text joined by the semicolon marker: for two or more parts without
    arrow or semicolon marker whose trimmed texts are pairwise distinct and
    without marker, classification gives the trimmed parts in the order of
    the text, cut off after [MaxErrorDepth] of them. *)
Theorem semicolon_joined_text_in_order l :
  (2 ≤ length l)%nat →
  Forall (λ p, Cut p DelimArrow = None ∧ Cut p DelimSemiColon = None) l →
  NoDup (TrimSpace <$> l) →
  Forall (λ p, delimiterFree (TrimSpace p) = true) l →
  ∃ x, FromError (Some (errorString (String.concat DelimSemiColon l)))
       = Ok (Some x)
       ∧ leaves x = take (Z.to_nat MaxErrorDepth) (TrimSpace <$> l).
Proof.
  intros Hlen Hfree Hnd Htrim.
  apply Forall_and in Hfree as [Harrow Hsemi].
  destruct (decide (0 < MaxErrorDepth)) as [Hmax|Hmax].
  2: { rewrite FromError_depth_nonpositive by lia. eexists. split; [done|].
       by replace (Z.to_nat MaxErrorDepth) with 0%nat by lia. }
  unfold FromError, parseError. cbn [parseError_nonnil].
  rewrite depthReached_empty by done. eexists. split; [reflexivity|].
  rewrite parseString_unfold, depthReached_empty by done. cbv zeta.
  assert (DelimArrowSerialized = DelimArrow) as -> by done.
  pose proof (semicolon_joined_no_arrow l Harrow) as ->%Contains_false.
  destruct l as [|p [|q l]]; [simpl in Hlen; lia..|].
  rewrite (Contains_concat_marker2 ";" " ")
    by (done || by apply Forall_cons in Hsemi as [? _]).
  rewrite (Split_concat_marker2 ";" " ") by done.
  apply (leaves_of_parts _ (Z.to_nat MaxErrorDepth)).
  rewrite foldl_parts, parts_become_leaves.
  - cbn [errs emptyErrorX length app Z.of_nat]. by rewrite Z.sub_0_r.
  - done.
  - by apply Forall_fmap.
  - intros ? _. apply not_elem_of_empty.
Qed.

(** X14. Text joined by the arrow marker: for two or more parts without the
    marker whose trimmed texts are pairwise distinct and without marker,
    classification gives the trimmed parts from the last to the first, cut
    off after [MaxErrorDepth] of them. *)
Theorem arrow_joined_text_in_reverse l :
  (2 ≤ length l)%nat →
  Forall (λ p, Cut p DelimArrow = None) l →
  NoDup (TrimSpace <$> l) →
  Forall (λ p, delimiterFree (TrimSpace p) = true) l →
  ∃ x, FromError (Some (errorString (String.concat DelimArrow l)))
       = Ok (Some x)
       ∧ leaves x
         = take (Z.to_nat MaxErrorDepth) (reverse (TrimSpace <$> l)).
Proof.
  intros Hlen Harrow Hnd Htrim.
  destruct (decide (0 < MaxErrorDepth)) as [Hmax|Hmax].
  2: { rewrite FromError_depth_nonpositive by lia. eexists. split; [done|].
       by replace (Z.to_nat MaxErrorDepth) with 0%nat by lia. }
  unfold FromError, parseError. cbn [parseError_nonnil].
  rewrite depthReached_empty by done. eexists. split; [reflexivity|].
  rewrite parseString_unfold, depthReached_empty by done. cbv zeta.
  destruct l as [|p [|q l]]; [simpl in Hlen; lia..|].
  rewrite (Contains_concat_marker2 "<" "-")
    by (done || by apply Forall_cons in Harrow as [? _]).
  rewrite (Split_concat_marker2 "<" "-") by done.
  apply (leaves_of_parts _ (Z.to_nat MaxErrorDepth)).
  rewrite foldl_parts, <-fmap_reverse, parts_become_leaves.
  - cbn [errs emptyErrorX length app Z.of_nat].
    by rewrite Z.sub_0_r, fmap_reverse.
  - by rewrite fmap_reverse, reverse_Permutation.
  - rewrite fmap_reverse. apply Forall_reverse. by apply Forall_fmap.
  - intros ? _. apply not_elem_of_empty.
Qed.

(** X15. The decomposition of a text ends: every part on which the default
    case calls [parseError] again is, once trimmed, strictly shorter than
    the text that was split. *)
Theorem default_case_recurses_on_shorter_text s p :
  (Contains s DelimArrow = true ∧ p ∈ Split s DelimArrow)
  ∨ (Contains s DelimSemiColon = true ∧ p ∈ Split s DelimSemiColon)
  ∨ (Contains s MultiLineErrPrefix = true
     ∧ p ∈ Split (ReplaceAllEmpty s MultiLineErrPrefix) DelimMultiLine) →
  (String.length (TrimSpace p) < String.length s)%nat.
Proof.
  intros [[Hc Hp]|[[Hc Hp]|[Hc Hp]]].
  - by apply (part_shorter s DelimArrow).
  - by apply (part_shorter s DelimSemiColon).
  - by apply multiline_part_shorter.
Qed.

End joined_text.

(** ** Package [memoize]: the names and lists the generator writes *)

Section memoize_properties.
Import memoize.
Implicit Types (f g : FunctionDeclaration.t) (v w : FuncValue.t).
Implicit Types (s a b r : string) (c : ascii).

Lemma formatInt_inj (i j : Z) : formatInt i = formatInt j → i = j.
Proof.
  unfold formatInt. intros H. apply DecimalZ.to_int_inj.
  pose proof (NilEmpty.isi (Z.to_int i)) as Hi.
  rewrite H, NilEmpty.isi in Hi. by injection Hi.
Qed.

(** X16. Results at different positions get different field names:
    [ResultName] determines the [Index]. *)
Theorem ResultName_determines_Index v w :
  FuncValue.ResultName v = FuncValue.ResultName w →
  FuncValue.Index v = FuncValue.Index w.
Proof.
  unfold FuncValue.ResultName. intros H%(inj (String.app "result")).
  by apply formatInt_inj.
Qed.

(** X17. The identifiers generated for a function: each of
    [SyncOnceVarName], [ResultStructType] and [ResultStructVarName]
    determines the name of the function, and an identifier of one of the
    three kinds is never one of another kind, for any two functions. *)
Theorem generated_identifiers_do_not_clash f g :
  (FunctionDeclaration.SyncOnceVarName f
   = FunctionDeclaration.SyncOnceVarName g →
   FunctionDeclaration.Name f = FunctionDeclaration.Name g)
  ∧ (FunctionDeclaration.ResultStructType f
     = FunctionDeclaration.ResultStructType g →
     FunctionDeclaration.Name f = FunctionDeclaration.Name g)
  ∧ (FunctionDeclaration.ResultStructVarName f
     = FunctionDeclaration.ResultStructVarName g →
     FunctionDeclaration.Name f = FunctionDeclaration.Name g)
  ∧ FunctionDeclaration.SyncOnceVarName f
    ≠ FunctionDeclaration.ResultStructType g
  ∧ FunctionDeclaration.SyncOnceVarName f
    ≠ FunctionDeclaration.ResultStructVarName g
  ∧ FunctionDeclaration.ResultStructType f
    ≠ FunctionDeclaration.ResultStructVarName g.
Proof.
  unfold FunctionDeclaration.SyncOnceVarName,
    FunctionDeclaration.ResultStructVarName,
    FunctionDeclaration.ResultStructType.
  split_and!; try discriminate.
  - by intros ?%(inj (String.app "once")).
  - by intros ?%(inj (String.app "result")).
  - by intros ?%(inj (String.app "v"))%(inj (String.app "result")).
Qed.

Lemma foldl_snoc_fmap {A B} (h : A → B) (l : list A) (acc : list B) :
  foldl (λ acc x, acc ++ [h x]) acc l = acc ++ (h <$> l).
Proof.
  revert acc. induction l as [|x l IH]; intros acc; simpl.
  - by rewrite app_nil_r.
  - by rewrite IH, <-app_assoc.
Qed.

Lemma CutPrefix_single c d s :
  CutPrefix (String d s) (String c EmptyString)
  = if Ascii.eqb c d then Some s else None.
Proof. done. Qed.

Lemma Cut_single_head c d s :
  Cut (String d s) (String c EmptyString) = None → Ascii.eqb c d = false.
Proof.
  intros H%Cut_None_CutPrefix. rewrite CutPrefix_single in H.
  by destruct (Ascii.eqb c d).
Qed.

Lemma Cut_single_app c a r :
  Cut a (String c EmptyString) = None →
  Cut (a +:+ String c r) (String c EmptyString) = Some (a, r).
Proof.
  induction a as [|d a IH]; intros Ha.
  - rewrite Cut_unfold. change (EmptyString +:+ ?t) with t.
    by rewrite CutPrefix_single, Ascii.eqb_refl.
  - rewrite string_app_cons, Cut_unfold, CutPrefix_single.
    rewrite (Cut_single_head c d a Ha).
    by rewrite IH by (by eapply Cut_None_cons).
Qed.

Lemma Cut_single_app_None c a b :
  Cut a (String c EmptyString) = None →
  Cut b (String c EmptyString) = None →
  Cut (a +:+ b) (String c EmptyString) = None.
Proof.
  intros Ha Hb. induction a as [|d a IH]; [done|].
  rewrite string_app_cons. apply Cut_cons_None.
  - by rewrite CutPrefix_single, (Cut_single_head c d a Ha).
  - apply IH. by eapply Cut_None_cons.
Qed.

Lemma Split_Join_single c (l : list string) :
  l ≠ [] → Forall (λ p, Cut p (String c EmptyString) = None) l →
  Split (Join l (String c EmptyString)) (String c EmptyString) = l.
Proof.
  unfold Join. intros Hl Hfree.
  induction Hfree as [|p l Hp Hfree IH]; [done|].
  destruct l as [|q l].
  - simpl. by rewrite Split_unfold, Hp.
  - rewrite concat_cons2, Split_unfold by done.
    change (String c EmptyString +:+ ?r) with (String c r).
    rewrite Cut_single_app by done. f_equal. by apply IH.
Qed.

Lemma formatInt_no_comma (i : Z) : Cut (formatInt i) "," = None.
Proof.
  unfold formatInt.
  assert (∀ d, Cut (NilEmpty.string_of_uint d) "," = None) as Hu.
  { induction d; cbn [NilEmpty.string_of_uint];
      [done|by apply Cut_cons_ne..]. }
  destruct (Z.to_int i) as [d|d]; cbn [NilEmpty.string_of_int]; [done|].
  by apply Cut_cons_ne.
Qed.

(** X18. [ParamsNames] is empty for a function without parameters;
    otherwise, as no name holds a comma, splitting it at the commas gives
    the names of the parameters back, one for each parameter and in
    order. *)
Theorem ParamsNames_lists_the_names f :
  (FunctionDeclaration.Params f = [] →
   FunctionDeclaration.ParamsNames f = EmptyString)
  ∧ (FunctionDeclaration.Params f ≠ [] →
     Forall (λ v, Cut (FuncValue.Name v) "," = None)
            (FunctionDeclaration.Params f) →
     Split (FunctionDeclaration.ParamsNames f) ","
     = FuncValue.Name <$> FunctionDeclaration.Params f).
Proof.
  unfold FunctionDeclaration.ParamsNames. cbv zeta.
  rewrite foldl_snoc_fmap. simpl. split.
  - by intros ->.
  - intros Hne Hfree. apply (Split_Join_single ",").
    + by destruct (FunctionDeclaration.Params f).
    + by apply Forall_fmap.
Qed.

(** X19. [ResultStructFields], for a function with results and a name
    without comma, splits at the commas into one selector for each result,
    in order: the variable [vresult] followed by the name of the function,
    a dot, and the [ResultName] of the result. *)
Theorem ResultStructFields_lists_the_selectors f :
  FunctionDeclaration.Results f ≠ [] →
  Cut (FunctionDeclaration.Name f) "," = None →
  Split (FunctionDeclaration.ResultStructFields f) ","
  = (λ v, "vresult" +:+ FunctionDeclaration.Name f +:+ "."
          +:+ FuncValue.ResultName v)
    <$> FunctionDeclaration.Results f.
Proof.
  intros Hne Hname. unfold FunctionDeclaration.ResultStructFields.
  cbv zeta. rewrite foldl_snoc_fmap. simpl.
  rewrite (Split_Join_single ",").
  - apply list_fmap_ext. intros i v _.
    unfold FunctionDeclaration.ResultStructVarName,
      FunctionDeclaration.ResultStructType.
    by rewrite !string_app_assoc.
  - by destruct (FunctionDeclaration.Results f).
  - apply Forall_fmap, Forall_forall. intros v _.
    unfold compose, FunctionDeclaration.ResultStructVarName,
      FunctionDeclaration.ResultStructType, FuncValue.ResultName.
    apply Cut_single_app_None.
    + by do 2 (apply Cut_single_app_None; [done|]).
    + do 2 (apply Cut_single_app_None; [done|]).
      apply formatInt_no_comma.
Qed.

End memoize_properties.

Section memoize_collection.
Import memoize.
Implicit Types (doc : list string) (fields : list Field).
Implicit Types (acc ps rs : list FuncValue.t).

Lemma last_name (names : list string) (s : string) :
  foldl (λ _ name, name) s names = default s (last names).
Proof.
  revert s. induction names as [|n names IH]; intros s; [done|].
  simpl foldl. rewrite IH. destruct names as [|m names]; [done|].
  rewrite last_cons_cons. destruct (last (m :: names)) eqn:Hl; [done|].
  by apply last_None in Hl.
Qed.

Lemma appendValues_spec acc fields :
  appendValues acc fields
  = acc ++ imap (λ idx field,
                   FuncValue.mk (Z.of_nat idx)
                     (default EmptyString (last (Names field)))
                     (FieldType field))
                fields.
Proof.
  unfold appendValues.
  transitivity
    (acc ++ ((λ p : nat * Field,
                FuncValue.mk (Z.of_nat p.1)
                  (default EmptyString (last (Names p.2)))
                  (FieldType p.2))
             <$> imap pair fields)).
  - generalize (imap pair fields). intros l. revert acc.
    induction l as [|[idx field] l IH]; intros acc; simpl.
    + by rewrite app_nil_r.
    + by rewrite IH, last_name, <-app_assoc.
  - by rewrite fmap_imap.
Qed.

Lemma appendValues_length acc fields :
  length (appendValues acc fields) = (length acc + length fields)%nat.
Proof. by rewrite appendValues_spec, length_app, length_imap. Qed.

Lemma collectValues_iter doc (params results : option (list Field))
    (acc : list FuncValue.t * list FuncValue.t) :
  foldl (λ '(ps, rs) comment,
           if decide (comment = "// @memo")
           then (match params with
                 | Some l => appendValues ps l
                 | None => ps
                 end,
                 match results with
                 | Some l => appendValues rs l
                 | None => rs
                 end)
           else (ps, rs))
        acc doc
  = Nat.iter (length (filter (λ c, c = "// @memo") doc))
      (λ '(ps, rs),
         (match params with
          | Some l => appendValues ps l
          | None => ps
          end,
          match results with
          | Some l => appendValues rs l
          | None => rs
          end))
      acc.
Proof.
  revert acc. induction doc as [|c doc IH]; intros [ps rs]; [done|].
  cbn [foldl]. rewrite filter_cons. case_decide.
  - rewrite IH. cbn [length]. by rewrite Nat.iter_succ_r.
  - by rewrite IH.
Qed.

Lemma iter_lengths (n : nat) (params results : option (list Field)) ps rs :
  let r :=
    Nat.iter n
      (λ '(ps, rs),
         (match params with
          | Some l => appendValues ps l
          | None => ps
          end,
          match results with
          | Some l => appendValues rs l
          | None => rs
          end))
      (ps, rs) in
  length r.1 = (length ps + n * length (default [] params))%nat
  ∧ length r.2 = (length rs + n * length (default [] results))%nat.
Proof.
  induction n as [|n IH]; [simpl; lia|].
  cbv zeta in *. rewrite Nat.iter_succ.
  destruct (Nat.iter n _ _) as [ps' rs']. simpl in IH. destruct IH as [H1 H2].
  destruct params, results; simpl; rewrite ?appendValues_length; simpl in *;
    lia.
Qed.

(** X20. [Src] collects the parameters and the results of a function once
    for every doc comment that is the memo marker: none without the marker,
    and each of them twice when the marker is there twice. *)
Theorem collectValues_counts_memo_lines doc
    (params results : option (list Field)) :
  let n := length (filter (λ c, c = "// @memo") doc) in
  length (collectValues doc params results).1
  = (n * length (default [] params))%nat
  ∧ length (collectValues doc params results).2
    = (n * length (default [] results))%nat.
Proof.
  unfold collectValues. rewrite collectValues_iter.
  apply (iter_lengths _ params results [] []).
Qed.

(** X21. For a function with one memo marker the values follow the field
    lists: the results are numbered from 0 in order, so that their
    [ResultName]s are pairwise different, and each parameter takes the last
    name of its field, or no name when the field has none. *)
Theorem single_memo_line_values doc (params results : option (list Field))
    ps rs :
  length (filter (λ c, c = "// @memo") doc) = 1%nat →
  collectValues doc params results = (ps, rs) →
  FuncValue.Index <$> rs
  = Z.of_nat <$> seq 0 (length (default [] results))
  ∧ NoDup (FuncValue.ResultName <$> rs)
  ∧ FuncValue.Name <$> ps
    = (λ field, default EmptyString (last (Names field)))
      <$> default [] params.
Proof.
  intros Hone. unfold collectValues. rewrite collectValues_iter, Hone.
  cbn [Nat.iter]. intros [= <- <-].
  assert (∀ fields,
            FuncValue.Index <$> appendValues [] fields
            = Z.of_nat <$> seq 0 (length fields)) as Hidx.
  { intros fields. rewrite appendValues_spec, app_nil_l, fmap_imap. simpl.
    apply (imap_seq_0 fields Z.of_nat). }
  split_and!.
  - destruct results as [fields|]; [apply Hidx|done].
  - destruct results as [fields|]; [|constructor].
    replace (FuncValue.ResultName <$> appendValues [] fields)
      with ((λ i, "result" +:+ formatInt i)
            <$> (FuncValue.Index <$> appendValues [] fields))
      by (by rewrite <-list_fmap_compose).
    rewrite Hidx, <-list_fmap_compose.
    apply NoDup_fmap_2; [|apply NoDup_seq].
    intros i j Hij. simpl in Hij.
    apply (inj (String.app "result")), formatInt_inj in Hij. lia.
  - destruct params as [fields|]; [|done].
    rewrite appendValues_spec, app_nil_l, fmap_imap. simpl.
    apply (imap_const (λ field, default EmptyString (last (Names field)))).
Qed.

End memoize_collection.

(** ** What becomes a leaf *)

Section leaf_properties.
Context {ext : Externals} {order : MapOrder} {cfg : Config}.
Implicit Types (to e : ErrorX) (err : error) (s p : string).

(** X22. With at least one leaf, [Error()] is the kind prefix, the
    attribute group, and the leaves joined by the separator, without a
    separator at the end: what is trimmed is the separator written after the
    last leaf. *)
Theorem Error_with_a_leaf_is_as_described e :
  errs e ≠ [] → ErrorX_Error e = described e.
Proof. apply ErrorX_Error_with_leaves. Qed.

Lemma parsePlain_leaves_irreducible n to s :
  Forall (λ leaf, delimiterFree leaf = true) (leaves to) →
  Forall (λ leaf, delimiterFree leaf = true) (leaves (parsePlain n to s)).
Proof.
  revert to s. induction n as [|n IH]; intros to s Hto; cbn [parsePlain];
    cbv zeta; destruct (depthReached to); try done.
  destruct (Contains s DelimArrow) eqn:H1;
    [apply (foldl_invariant
              (λ to, Forall (λ leaf, delimiterFree leaf = true) (leaves to)));
     [intros; by apply IH | done]|].
  destruct (Contains s DelimArrowSerialized) eqn:H2;
    [apply (foldl_invariant
              (λ to, Forall (λ leaf, delimiterFree leaf = true) (leaves to)));
     [intros; by apply IH | done]|].
  destruct (Contains s DelimSemiColon) eqn:H3;
    [apply (foldl_invariant
              (λ to, Forall (λ leaf, delimiterFree leaf = true) (leaves to)));
     [intros; by apply IH | done]|].
  destruct (Contains s MultiLineErrPrefix) eqn:H4;
    [apply (foldl_invariant
              (λ to, Forall (λ leaf, delimiterFree leaf = true) (leaves to)));
     [intros; by apply IH | done]|].
  rewrite leaves_append1. case_decide; [done|].
  apply Forall_app. split; [done|]. apply Forall_singleton. simpl.
  unfold delimiterFree. by rewrite H1, H2, H3, H4.
Qed.

(** X23. The leaves of a classified plain error cannot be decomposed
    further: none of them contains the arrow marker, the semicolon marker or
    the multi-line prefix. *)
Theorem text_leaves_hold_no_marker s x :
  FromError (Some (errorString s)) = Ok (Some x) →
  Forall (λ leaf, delimiterFree leaf = true) (leaves x).
Proof.
  unfold FromError, parseError. cbn [parseError_nonnil].
  destruct (depthReached emptyErrorX); intros [= <-]; [constructor|].
  apply parsePlain_leaves_irreducible. constructor.
Qed.

(** X24. The children of a joined error become leaves as they are, all of
    them: when they are non-nil and render to pairwise distinct strings, the
    leaves are the children in order, however many there are and whatever
    their texts or their own children. *)
Theorem joined_children_become_leaves s (children : list error) :
  0 < MaxErrorDepth → children ≠ [] → NoDup (Error <$> children) →
  ∃ x, FromError (Some (joinError s (Some <$> children))) = Ok (Some x)
       ∧ errs x = children.
Proof.
  intros Hmax Hne Hnd. unfold FromError, parseError.
  cbn [parseError_nonnil]. rewrite depthReached_empty by done.
  assert (∀ to (l : list error),
            foldl (λ acc child, to ← acc; append to [child]) (Ok to)
                  (Some <$> l)
            = Ok (foldl append1 to l)) as Hfold.
  { intros to l. revert to. induction l as [|c l IH]; intros to; [done|].
    simpl. apply IH. }
  rewrite Hfold. simpl.
  destruct children as [|c l]; [done|]. cbn [fmap list_fmap].
  eexists. split; [reflexivity|].
  rewrite foldl_append1_fresh; [done|done|].
  intros y _. apply not_elem_of_empty.
Qed.

End leaf_properties.

(** ** The multi-line format *)

Section multiline.
Context {ext : Externals} {order : MapOrder} {cfg : Config}.
Implicit Types (a b m r t s p : string) (c d : ascii) (l : list string).

Lemma string_app_eq_cases a b m r :
  a +:+ b = m +:+ r →
  (∃ t, a = m +:+ t) ∨ (∃ t, m = a +:+ t ∧ b = t +:+ r).
Proof.
  revert m. induction a as [|d a IH]; intros m H.
  - right. by exists m.
  - destruct m as [|d' m]; [left; by exists (String d a)|].
    rewrite !string_app_cons in H. injection H as -> H.
    destruct (IH m H) as [[t ->]|[t [-> ->]]]; [left|right]; by exists t.
Qed.

Lemma Cut_single_present c a t :
  Cut (a +:+ String c t) (String c EmptyString) ≠ None.
Proof.
  induction a as [|d a IH]; rewrite Cut_unfold.
  - change (EmptyString +:+ ?u) with u.
    by rewrite CutPrefix_single, Ascii.eqb_refl.
  - rewrite string_app_cons. destruct (CutPrefix _ _); [done|].
    by destruct (Cut (a +:+ String c t) _) as [[? ?]|].
Qed.

Lemma Cut_prefix_refl a t : Cut (a +:+ t) a ≠ None.
Proof. by rewrite Cut_unfold, CutPrefix_app. Qed.

Lemma Cut_self a : Cut a a ≠ None.
Proof.
  rewrite <-(string_app_nil_r a) at 1. apply Cut_prefix_refl.
Qed.

(** A marker that does not hold the byte [c] cannot lie across a [c]. *)
Lemma Cut_across_byte c m a b :
  Cut m (String c EmptyString) = None →
  Cut a m = None → Cut b m = None →
  Cut (a +:+ String c b) m = None.
Proof.
  intros Hc Ha Hb. induction a as [|d a IH].
  - change (EmptyString +:+ ?u) with u. apply Cut_cons_None; [|done].
    destruct (CutPrefix _ _) as [r|] eqn:Hp; [exfalso|done].
    apply CutPrefix_Some in Hp. destruct m as [|d' m]; [done|].
    rewrite string_app_cons in Hp. injection Hp as <- _.
    by apply (Cut_single_present c EmptyString m).
  - rewrite string_app_cons. apply Cut_cons_None.
    + destruct (CutPrefix _ _) as [r|] eqn:Hp; [exfalso|done].
      apply CutPrefix_Some in Hp. rewrite <-string_app_cons in Hp.
      apply string_app_eq_cases in Hp as [[t Ht]|[t [Ht Hb']]].
      * rewrite Ht in Ha. by apply (Cut_prefix_refl m t).
      * destruct t as [|c' t].
        { rewrite string_app_nil_r in Ht. subst m.
          by apply (Cut_self (String d a)). }
        rewrite string_app_cons in Hb'. injection Hb' as <- _.
        subst m. by apply (Cut_single_present c (String d a) t).
    + apply IH. by eapply Cut_None_cons.
Qed.

(** A separator whose first byte does not come back in it is found where
    it was put. *)
Lemma Cut_app_sep c m a r :
  Cut m (String c EmptyString) = None →
  Cut a (String c m) = None →
  Cut (a +:+ String c m +:+ r) (String c m) = Some (a, r).
Proof.
  intros Hc Ha. induction a as [|d a IH].
  - rewrite Cut_unfold. change (EmptyString +:+ ?u) with u.
    by rewrite CutPrefix_app.
  - rewrite string_app_cons, Cut_unfold.
    destruct (CutPrefix _ _) as [r'|] eqn:Hp.
    + exfalso. apply CutPrefix_Some in Hp. rewrite <-string_app_cons in Hp.
      apply string_app_eq_cases in Hp as [[t Ht]|[t [Ht Hr]]].
      * rewrite Ht in Ha. by apply (Cut_prefix_refl (String c m) t).
      * rewrite string_app_cons in Ht. injection Ht as -> Hm.
        destruct t as [|c' t].
        { rewrite string_app_nil_r in Hm. subst m.
          by apply (Cut_self (String d a)). }
        rewrite !string_app_cons in Hr. injection Hr as <- _.
        subst m. by apply (Cut_single_present d a t).
    + by rewrite IH by (by eapply Cut_None_cons).
Qed.

Lemma Split_concat_sep c m l :
  Cut m (String c EmptyString) = None → l ≠ [] →
  Forall (λ p, Cut p (String c m) = None) l →
  Split (String.concat (String c m) l) (String c m) = l.
Proof.
  intros Hc Hl Hfree. induction Hfree as [|p l Hp Hfree IH]; [done|].
  destruct l as [|q l].
  - simpl. by rewrite Split_unfold, Hp.
  - rewrite concat_cons2, Split_unfold, Cut_app_sep by done.
    f_equal. by apply IH.
Qed.

(** A marker without line feed that starts with neither a space nor a
    dash is not in what [DelimMultiLine] joins, when it is in no part. *)
Lemma multiline_joined_no_marker c m l :
  Cut (String c m) (String "010" EmptyString) = None →
  c ≠ " "%char → c ≠ "-"%char →
  Forall (λ p, Cut p (String c m) = None) l →
  Cut (String.concat DelimMultiLine l) (String c m) = None.
Proof.
  intros Hnl Hsp Hdash. induction 1 as [|p l Hp Hfree IH]; [done|].
  destruct l as [|q l]; [done|]. rewrite concat_cons2.
  change (DelimMultiLine +:+ ?u)
    with (String "010" (String " " (String "-" (String " " (String " " u))))).
  apply Cut_across_byte; [done..|].
  by do 4 (apply Cut_cons_ne; [done|]).
Qed.

(** X25. The multi-line format: the text is the prefix and then each part
    after the line marker. What comes before the first marker, once the
    prefix is taken out, is the empty text, and it is classified like the
    parts: the leaves are the empty string and then the trimmed parts in
    order, cut off after [MaxErrorDepth] of them. *)
Theorem multiline_text_starts_with_an_empty_leaf l :
  l ≠ [] →
  Forall (λ p, Cut p DelimArrow = None ∧ Cut p DelimSemiColon = None
               ∧ Cut p MultiLineErrPrefix = None
               ∧ Cut p DelimMultiLine = None) l →
  NoDup (EmptyString :: (TrimSpace <$> l)) →
  Forall (λ p, delimiterFree (TrimSpace p) = true) l →
  ∃ x, FromError
         (Some (errorString
                  (String.concat DelimMultiLine (MultiLineErrPrefix :: l))))
       = Ok (Some x)
       ∧ leaves x
         = take (Z.to_nat MaxErrorDepth) (EmptyString :: (TrimSpace <$> l)).
Proof.
  intros Hl Hfree Hnd Htrim.
  apply Forall_and in Hfree as [Harrow Hfree].
  apply Forall_and in Hfree as [Hsemi Hfree].
  apply Forall_and in Hfree as [Hprefix Hline].
  destruct (decide (0 < MaxErrorDepth)) as [Hmax|Hmax].
  2: { rewrite FromError_depth_nonpositive by lia.
       eexists. split; [done|].
       by replace (Z.to_nat MaxErrorDepth) with 0%nat by lia. }
  unfold FromError, parseError. cbn [parseError_nonnil].
  rewrite depthReached_empty by done. eexists. split; [reflexivity|].
  rewrite parseString_unfold, depthReached_empty by done. cbv zeta.
  assert (DelimArrowSerialized = DelimArrow) as -> by done.
  assert (∀ c m,
            Cut (String c m) (String "010" EmptyString) = None →
            c ≠ " "%char → c ≠ "-"%char →
            Cut MultiLineErrPrefix (String c m) = None →
            Forall (λ p, Cut p (String c m) = None) l →
            Contains (String.concat DelimMultiLine (MultiLineErrPrefix :: l))
                     (String c m) = false) as Hno.
  { intros c m Hnl Hsp Hdash Hpre Hparts. apply Contains_false.
    by apply (multiline_joined_no_marker c m (MultiLineErrPrefix :: l));
      [..|constructor]. }
  assert (Contains (String.concat DelimMultiLine (MultiLineErrPrefix :: l))
                   DelimArrow = false) as ->
    by (by apply (Hno "<"%char "-")).
  assert (Contains (String.concat DelimMultiLine (MultiLineErrPrefix :: l))
                   DelimSemiColon = false) as ->
    by (by apply (Hno ";"%char " ")).
  destruct l as [|q l]; [done|].
  set (rest := String.concat DelimMultiLine (q :: l)) in *.
  change (String.concat DelimMultiLine (MultiLineErrPrefix :: q :: l))
    with (MultiLineErrPrefix +:+ DelimMultiLine +:+ rest).
  assert (Cut (DelimMultiLine +:+ rest) MultiLineErrPrefix = None) as Hrest.
  { change (DelimMultiLine +:+ rest)
      with (String.concat DelimMultiLine (EmptyString :: q :: l)).
    by apply (multiline_joined_no_marker "t"); [..|constructor]. }
  assert (Cut (MultiLineErrPrefix +:+ DelimMultiLine +:+ rest)
              MultiLineErrPrefix
          = Some (EmptyString, DelimMultiLine +:+ rest)) as Hcut.
  { by rewrite Cut_unfold, CutPrefix_app. }
  unfold Contains at 1. rewrite Hcut.
  assert (ReplaceAllEmpty (MultiLineErrPrefix +:+ DelimMultiLine +:+ rest)
                          MultiLineErrPrefix
          = String.concat DelimMultiLine (EmptyString :: q :: l)) as ->.
  { unfold ReplaceAllEmpty, MultiLineErrPrefix at 2.
    fold MultiLineErrPrefix.
    rewrite Split_unfold, Hcut by done.
    by rewrite Split_unfold, Hrest by done. }
  assert (Split (String.concat DelimMultiLine (EmptyString :: q :: l))
                DelimMultiLine = EmptyString :: q :: l) as ->
    by (by apply (Split_concat_sep "010"); [..|constructor]).
  apply (leaves_of_parts _ (Z.to_nat MaxErrorDepth)).
  rewrite foldl_parts, parts_become_leaves.
  - cbn [errs emptyErrorX length app Z.of_nat]. by rewrite Z.sub_0_r.
  - done.
  - rewrite fmap_cons. constructor; [done|by apply Forall_fmap].
  - intros ? _. apply not_elem_of_empty.
Qed.

End multiline.

(** ** The further properties on concrete inputs *)

Section more_sample_runs.
#[local] Existing Instances sampleExternals forwardOrder defaultConfig.
Import memoize.

Ltac distinct_strings :=
  vm_compute;
  repeat (apply NoDup_cons; split;
          [rewrite ?elem_of_cons, elem_of_nil; intros H;
           repeat destruct H as [H|H]; done|]);
  apply NoDup_nil_2.

Ltac each_part := repeat (constructor; try (vm_compute; done)).

Lemma FromError_without_depth_witness :
  FromError (cfg := {| MaxErrorDepth := 0; ErrorSeperator := "; " |})
    (Some (causeError "connection lost" None))
  = Ok (Some emptyErrorX).
Proof. apply (FromError_without_depth (ext := sampleExternals) (order := forwardOrder)). simpl. lia. Defined.

Lemma operations_only_add_leaves_witness :
  ∃ e', run (New "disk full")
            [opMsgf "write failed";
             opParseError (Some (errorString "save config; disk full"))]
        = Ok e'
        ∧ errs (New "disk full") `prefix_of` errs e'.
Proof.
  eexists. split; [vm_compute; reflexivity|].
  apply (operations_only_add_leaves (ext := sampleExternals) (order := forwardOrder) (cfg := defaultConfig) _
           [opMsgf "write failed";
            opParseError (Some (errorString "save config; disk full"))]).
  vm_compute. reflexivity.
Defined.

Lemma Cause_is_stable_witness :
  ∃ e', run (New "disk full")
            [opMsgf "write failed"; opSetKind (Some "io")] = Ok e'
        ∧ Cause e' = Some (errorString "disk full").
Proof.
  eexists. split; [vm_compute; reflexivity|].
  apply (Cause_is_stable (ext := sampleExternals) (order := forwardOrder) (cfg := defaultConfig) (New "disk full")
           [opMsgf "write failed";
            opSetKind (ext := sampleExternals) (Some "io")]);
    vm_compute; reflexivity.
Defined.

Lemma FromError_has_no_attrs_witness :
  let v := SetAttr (New "disk full") [mkAttr "host" 1] in
  attrs v = {[ "host" := mkAttr "host" 1 ]}
  ∧ ∃ x, FromError (Some (toError v)) = Ok (Some x) ∧ attrs x = ∅.
Proof.
  intros v. split; [vm_compute; reflexivity|].
  eexists. split; [vm_compute; reflexivity|].
  apply (FromError_has_no_attrs (ext := sampleExternals) (order := forwardOrder) (cfg := defaultConfig) (toError v)). vm_compute. reflexivity.
Defined.



Lemma attrs_stay_within_MaxErrorDepth_witness :
  ∃ e, run emptyErrorX
         [opSetAttr [mkAttr "a" 1; mkAttr "b" 2; mkAttr "c" 3; mkAttr "d" 4];
          opSetAttr [mkAttr "e" 5]] = Ok e
       ∧ Z.of_nat (size (attrs e)) ≤ MaxErrorDepth.
Proof.
  eexists. split; [vm_compute; reflexivity|].
  apply (attrs_stay_within_MaxErrorDepth (ext := sampleExternals) (order := forwardOrder) (cfg := defaultConfig)
           [opSetAttr (ext := sampleExternals)
              [mkAttr "a" 1; mkAttr "b" 2; mkAttr "c" 3; mkAttr "d" 4];
            opSetAttr (ext := sampleExternals) [mkAttr "e" 5]]);
    [simpl; lia|].
  vm_compute. reflexivity.
Defined.

Lemma SetAttr_keeps_stored_attributes_witness :
  attrs (SetAttr (SetAttr emptyErrorX [mkAttr "host" 1])
                 [mkAttr "host" 2; mkAttr "port" 3]) !! "host"
  = Some (mkAttr "host" 1).
Proof.
  apply (SetAttr_keeps_stored_attributes (ext := sampleExternals)).
  vm_compute. reflexivity.
Defined.

Lemma MarshalJSON_needs_a_kind_witness :
  let tagged := SetKind (New "disk full") (Some "io") in
  (∃ e, run (New "disk full") [opMsgf "write failed"] = Ok e
        ∧ MarshalJSON_map e = Panic)
  ∧ ∃ m, MarshalJSON_map tagged = Ok m
         ∧ json_kind m = "io" ∧ json_errors m = ["disk full"].
Proof.
  intros tagged.
  pose proof (MarshalJSON_needs_a_kind (ext := sampleExternals)
                (order := forwardOrder) (cfg := defaultConfig))
    as [Hkind Hnone].
  split.
  - apply Hnone. reflexivity.
  - destruct (Hkind tagged "io") as (m & Hm & Hk & He & _); [reflexivity|].
    exists m. split_and!; [done|done|]. rewrite He. vm_compute. reflexivity.
Defined.

Lemma semicolon_joined_text_in_order_witness :
  ∃ x, FromError (Some (errorString "a; b ; c;  d")) = Ok (Some x)
       ∧ leaves x = ["a"; "b"; "c"].
Proof.
  apply (semicolon_joined_text_in_order (ext := sampleExternals) (order := forwardOrder) (cfg := defaultConfig)
           ["a"; "b "; "c"; " d"]).
  - simpl. lia.
  - each_part.
  - distinct_strings.
  - each_part.
Defined.

Lemma arrow_joined_text_in_reverse_witness :
  ∃ x, FromError
         (Some (errorString "d <- disk full <- write failed <- save config"))
       = Ok (Some x)
       ∧ leaves x = ["save config"; "write failed"; "disk full"].
Proof.
  apply (arrow_joined_text_in_reverse (ext := sampleExternals) (order := forwardOrder) (cfg := defaultConfig)
           ["d "; " disk full "; " write failed "; " save config"]).
  - simpl. lia.
  - each_part.
  - distinct_strings.
  - each_part.
Defined.

Lemma default_case_recurses_on_shorter_text_witness :
  (String.length (TrimSpace "write failed ")
   < String.length "disk full; write failed ")%nat.
Proof.
  apply (default_case_recurses_on_shorter_text
           "disk full; write failed " "write failed ").
  right. left. split; [reflexivity|]. vm_compute.
  apply list_elem_of_further, list_elem_of_here.
Defined.

Lemma ResultName_determines_Index_witness :
  FuncValue.Index (FuncValue.mk 12 "err" "error")
  = FuncValue.Index (FuncValue.mk 12 "" "int").
Proof. apply ResultName_determines_Index. reflexivity. Defined.

Lemma generated_identifiers_do_not_clash_witness :
  let f := FunctionDeclaration.mk "tests" true "Fetch" [] [] "func Fetch()" in
  let g := FunctionDeclaration.mk "other" true "Fetch"
             [FuncValue.mk 0 "url" "string"] [] "func Fetch(url string)" in
  FunctionDeclaration.Name f = FunctionDeclaration.Name g.
Proof.
  intros f g.
  apply (proj1 (generated_identifiers_do_not_clash f g)). reflexivity.
Defined.

Lemma ParamsNames_lists_the_names_witness :
  let f := FunctionDeclaration.mk "tests" true "Fetch"
             [FuncValue.mk 0 "url" "string"; FuncValue.mk 1 "retries" "int"]
             [] "func Fetch(url string, retries int)" in
  FunctionDeclaration.ParamsNames f = "url,retries"
  ∧ Split (FunctionDeclaration.ParamsNames f) "," = ["url"; "retries"].
Proof.
  intros f. split; [reflexivity|].
  apply (proj2 (ParamsNames_lists_the_names f)); [done|each_part].
Defined.

Lemma ResultStructFields_lists_the_selectors_witness :
  let f := FunctionDeclaration.mk "tests" true "Fetch" []
             [FuncValue.mk 0 "" "string"; FuncValue.mk 1 "" "error"]
             "func Fetch() (string, error)" in
  FunctionDeclaration.ResultStructFields f
  = "vresultFetch.result0,vresultFetch.result1"
  ∧ Split (FunctionDeclaration.ResultStructFields f) ","
    = ["vresultFetch.result0"; "vresultFetch.result1"].
Proof.
  intros f. split; [reflexivity|].
  apply (ResultStructFields_lists_the_selectors f); [done|reflexivity].
Defined.

Lemma single_memo_line_values_witness :
  let doc := ["// Fetch gets the page"; "// @memo"] in
  let params := Some [mkField ["url"; "proxy"] "string"; mkField [] "int"] in
  let results := Some [mkField [] "string"; mkField ["err"] "error"] in
  ∃ ps rs, collectValues doc params results = (ps, rs)
           ∧ FuncValue.Index <$> rs = [0; 1]
           ∧ NoDup (FuncValue.ResultName <$> rs)
           ∧ FuncValue.Name <$> ps = ["proxy"; EmptyString].
Proof.
  intros doc params results.
  destruct (collectValues doc params results) as [ps rs] eqn:Hc.
  exists ps, rs. split; [done|].
  by apply (single_memo_line_values doc params results ps rs).
Defined.

Lemma Error_with_a_leaf_is_as_described_witness :
  let e := SetKind (default emptyErrorX
                      (Msgf (Some (New "disk full")) "write failed"))
                   (Some "io") in
  ErrorX_Error e = "errKind=io disk full; write failed"
  ∧ ErrorX_Error e = described e.
Proof.
  intros e. split; [vm_compute; reflexivity|].
  apply (Error_with_a_leaf_is_as_described (ext := sampleExternals) (order := forwardOrder) (cfg := defaultConfig)). vm_compute. discriminate.
Defined.

Lemma text_leaves_hold_no_marker_witness :
  ∃ x, FromError (Some (errorString "a <- b; c <- d")) = Ok (Some x)
       ∧ leaves x = ["d"; "b"; "c"]
       ∧ Forall (λ leaf, delimiterFree leaf = true) (leaves x).
Proof.
  eexists. split; [vm_compute; reflexivity|].
  split; [vm_compute; reflexivity|].
  apply (text_leaves_hold_no_marker (ext := sampleExternals) (order := forwardOrder) (cfg := defaultConfig)
           "a <- b; c <- d").
  vm_compute. reflexivity.
Defined.

Lemma joined_children_become_leaves_witness :
  let children :=
    [errorString "a; b"; wrapError "c: d" (Some (errorString "d"));
     errorString "e"; errorString "f"] in
  ∃ x, FromError (Some (joinError "a; b, c: d, e, f" (Some <$> children)))
       = Ok (Some x)
       ∧ errs x = children.
Proof.
  intros children.
  apply (joined_children_become_leaves (ext := sampleExternals) (order := forwardOrder) (cfg := defaultConfig));
    [simpl; lia | done | distinct_strings].
Defined.

Lemma multiline_text_starts_with_an_empty_leaf_witness :
  ∃ x, FromError
         (Some (errorString
                  (String.concat DelimMultiLine
                     [MultiLineErrPrefix; "disk full"; "write failed";
                      "save config"])))
       = Ok (Some x)
       ∧ leaves x = [EmptyString; "disk full"; "write failed"].
Proof.
  apply (multiline_text_starts_with_an_empty_leaf (ext := sampleExternals) (order := forwardOrder) (cfg := defaultConfig)
           ["disk full"; "write failed"; "save config"]).
  - done.
  - each_part.
  - distinct_strings.
  - each_part.
Defined.

End more_sample_runs.
